(** * nusvg.js: breakpoint-driven SVG variations

    A shallow embedding of [src/nusvg.js] (the variation resolver
    [process] / [applyContainerQuery] / [applyQuery] and the attribute
    applier [applyData] / [applyStyle] / [applyAttribute]) together with
    the platform functions the resolver relies on ([String.prototype.substr],
    [indexOf], [replace] with the literal regular expression of line 168,
    and the global [parseInt]).

    Conventions of the model.
    - A JavaScript string is a [string]: one [ascii] per code unit, so the
      model covers the strings whose code units are below 256.
    - A JavaScript number is [NaN] or a rational; the resolver only
      compares numbers, and every finite double is a rational.
    - Attribute values are strings.  A configuration that gives a
      coordinate as a number [n] behaves as the one that gives its decimal
      rendering, except for the falsy numbers [0] and [NaN], which behave
      as the empty string (line 165 replaces every falsy coordinate by 0).
    - The spec calls the field [query.query] of a variation its key. *)

From Stdlib Require Import ZArith QArith Lia Lqa Ascii String.
From stdpp Require Import gmap strings list fin_maps.

Local Open Scope Z_scope.

(** ** JavaScript numbers, as far as the resolver uses them *)

Module JsNumber.

Inductive number : Type :=
| NaN
| Num (q : Q).

Definition Qltb (x y : Q) : bool :=
  (Qnum x * Zpos (Qden y) <? Qnum y * Zpos (Qden x))%Z.

(** [a < b]: false as soon as one operand is [NaN]. *)
Definition lt (a b : number) : bool :=
  match a, b with
  | Num x, Num y => Qltb x y
  | _, _ => false
  end.

(** [a > b] is [b < a]. *)
Definition gt (a b : number) : bool := lt b a.

Definition ofZ (z : Z) : number := Num (inject_Z z).

End JsNumber.
Export JsNumber.

(** ** JavaScript strings *)

Module JsString.

Definition LF : ascii := ascii_of_nat 10.
Definition CR : ascii := ascii_of_nat 13.

(** [s.substr(1)]: the string without its first code unit. *)
Definition substr1 (s : string) : string :=
  match s with
  | EmptyString => EmptyString
  | String _ r => r
  end.

(** [s] starts with [p]. *)
Fixpoint startsWith (p s : string) : bool :=
  match p, s with
  | EmptyString, _ => true
  | String a p', String b s' => Ascii.eqb a b && startsWith p' s'
  | String _ _, EmptyString => false
  end.

(** [s.indexOf(p) != -1]: [p] occurs somewhere in [s]. *)
Fixpoint includes (p s : string) : bool :=
  startsWith p s ||
  match s with
  | EmptyString => false
  | String _ s' => includes p s'
  end.

(** *** parseInt

    [parseInt(s)] without a radix: leading white space is skipped, then an
    optional sign, then an optional [0x]/[0X] prefix that selects radix 16;
    the value is that of the longest run of digits of the radix that
    follows, and [NaN] when that run is empty.  Whatever follows the run is
    ignored.

    The value here is the integer that the digits spell.  The platform
    returns the double nearest to it: the same number up to 2^53, and so
    for a run of at most 15 decimal digits; a rounded one above, and
    [Infinity] from about 309 digits on, which [number] does not have. *)

Definition isWhiteSpace (c : ascii) : bool :=
  match nat_of_ascii c with
  | 9%nat | 10%nat | 11%nat | 12%nat | 13%nat | 32%nat | 160%nat => true
  | _ => false
  end.

Fixpoint trimStart (s : string) : string :=
  match s with
  | EmptyString => EmptyString
  | String c r => if isWhiteSpace c then trimStart r else s
  end.

Definition digitValue (radix : Z) (c : ascii) : option Z :=
  let n := Z.of_nat (nat_of_ascii c) in
  let v :=
    if (48 <=? n) && (n <=? 57) then Some (n - 48)
    else if (97 <=? n) && (n <=? 122) then Some (n - 87)
    else if (65 <=? n) && (n <=? 90) then Some (n - 55)
    else None in
  match v with
  | Some d => if d <? radix then Some d else None
  | None => None
  end.

(** Value of the longest prefix of [s] made of digits of [radix]; [acc] is
    the value read so far, [None] while no digit has been read. *)
Fixpoint digits (radix : Z) (s : string) (acc : option Z) : option Z :=
  match s with
  | EmptyString => acc
  | String c r =>
      match digitValue radix c with
      | Some d => digits radix r (Some (radix * default 0 acc + d))
      | None => acc
      end
  end.

Definition stripSign (s : string) : Z * string :=
  match s with
  | String c r =>
      if Ascii.eqb c "-" then (-1, r)
      else if Ascii.eqb c "+" then (1, r)
      else (1, s)
  | EmptyString => (1, s)
  end.

Definition stripPrefix (s : string) : Z * string :=
  match s with
  | String c (String x r) =>
      if Ascii.eqb c "0" && (Ascii.eqb x "x" || Ascii.eqb x "X")
      then (16, r) else (10, s)
  | _ => (10, s)
  end.

Definition parseInt (s : string) : number :=
  let '(sign, s1) := stripSign (trimStart s) in
  let '(radix, s2) := stripPrefix s1 in
  match digits radix s2 None with
  | Some v => ofZ (sign * v)
  | None => NaN
  end.

(** *** The regular expression of line 168

    The pattern is the literal [translate(], then a group that takes
    as many code units as possible other than line terminators (a greedy
    dot-star), then the literal [)].  The group being greedy, the closing
    parenthesis of a match is the last one of the line. *)

Definition isLineTerminator (c : ascii) : bool :=
  Ascii.eqb c LF || Ascii.eqb c CR.

(** The greedy group and the closing parenthesis at the head of [s]: the
    captured text and what follows the closing parenthesis. *)
Fixpoint greedy (s : string) : option (string * string) :=
  match s with
  | EmptyString => None
  | String c r =>
      if isLineTerminator c then None
      else match greedy r with
           | Some (cap, aft) => Some (String c cap, aft)
           | None => if Ascii.eqb c ")" then Some (EmptyString, r) else None
           end
  end.

(** The rest of [s] after the literal [p], when [s] starts with [p]. *)
Fixpoint stripLiteral (p s : string) : option string :=
  match p with
  | EmptyString => Some s
  | String a p' =>
      match s with
      | String b s' => if Ascii.eqb a b then stripLiteral p' s' else None
      | EmptyString => None
      end
  end.

Definition token : string := "translate(".

(** The whole pattern at the head of [s]. *)
Definition matchHere (s : string) : option (string * string) :=
  match stripLiteral token s with
  | Some r => greedy r
  | None => None
  end.

Record RegExpMatch : Type := mkMatch
  { before : string;    (* the text in front of the match *)
    capture : string;   (* group 1 *)
    after : string }.   (* the text behind the match *)

Definition matched (m : RegExpMatch) : string :=
  token +:+ capture m +:+ ")".

(** The leftmost match in [s]. *)
Fixpoint exec (s : string) : option RegExpMatch :=
  match matchHere s with
  | Some (cap, aft) => Some (mkMatch EmptyString cap aft)
  | None =>
      match s with
      | EmptyString => None
      | String c r =>
          match exec r with
          | Some m => Some (mkMatch (String c (before m)) (capture m) (after m))
          | None => None
          end
      end
  end.

(** The replacement text for match [m], from the replacement string
    [template] (GetSubstitution, with one capture group and no named
    group): [$$] is a dollar, [$&] the match, [$`] and [$'] the text in
    front of and behind it, [$1] and [$01] the group; [$1d] is the group
    followed by the digit [d]; any other [$] stands for itself. *)
Fixpoint getSubstitution (m : RegExpMatch) (template : string) : string :=
  match template with
  | EmptyString => EmptyString
  | String c r =>
      if negb (Ascii.eqb c "$") then String c (getSubstitution m r)
      else
        match r with
        | EmptyString => String c EmptyString
        | String d r' =>
            if Ascii.eqb d "$" then String "$" (getSubstitution m r')
            else if Ascii.eqb d "&" then matched m +:+ getSubstitution m r'
            else if Ascii.eqb d "`" then before m +:+ getSubstitution m r'
            else if Ascii.eqb d "'" then after m +:+ getSubstitution m r'
            else if Ascii.eqb d "1" then capture m +:+ getSubstitution m r'
            else if Ascii.eqb d "0" then
              match r' with
              | String e r'' =>
                  if Ascii.eqb e "1" then capture m +:+ getSubstitution m r''
                  else String c (String d (getSubstitution m r'))
              | EmptyString => String c (String d EmptyString)
              end
            else String c (getSubstitution m r)
        end
  end.

(** [s.replace(re, template)] for the pattern [re] above, which has no
    global flag: the leftmost match is replaced, and [s] is returned as it
    is when there is none. *)
Definition replace (s template : string) : string :=
  match exec s with
  | Some m => before m +:+ getSubstitution m template +:+ after m
  | None => s
  end.

(** A string is truthy when it is not empty. *)
Definition truthy (s : string) : bool :=
  match s with
  | EmptyString => false
  | String _ _ => true
  end.

End JsString.
Export JsString.

(** ** The host document

    The resolver reaches the document through [document.getElementById],
    [element.style[name] = value] and [element.setAttribute(name, value)]
    only.  An element is its style properties and its attributes; a
    reference to an element is the id it was looked up by.  [writes] is the
    journal of the writes performed so far, oldest first: the code never
    reads it, it is there to state what one call wrote and in which
    order. *)

Record Element : Type := mkElement
  { style : gmap string string;
    attributes : gmap string string }.

Inductive Write : Type :=
| StyleWrite (element name value : string)
| AttributeWrite (element name value : string).

Record Host : Type := mkHost
  { document : gmap string Element;
    writes : list Write }.

Definition getElementById (el : string) (h : Host) : option string :=
  match document h !! el with
  | Some _ => Some el
  | None => None
  end.

Definition setStyle (name value : string) (e : Element) : Element :=
  mkElement (<[name := value]> (style e)) (attributes e).

Definition setAttribute (name value : string) (e : Element) : Element :=
  mkElement (style e) (<[name := value]> (attributes e)).

(** ** Variations *)

(** [{ x: ..., fill: ... }]: the attributes of one element, in the order
    [for ... in] enumerates them.  The values are strings here; the module
    [Dyn] below has the values of the other types. *)
Abbreviation ElementPatch := (list (string * string)).

(** [query.data]: the patch of each element id, in enumeration order. *)
Abbreviation PatchSet := (list (string * list (string * string))).

Record Query : Type := mkQuery
  { query : string;
    data : PatchSet }.

(** [this.svgComposition]; [process] reads its [width] only. *)
Record SvgComposition : Type := mkComposition
  { width : number }.

Record NuSvg : Type := mkNuSvg
  { svgComposition : SvgComposition;
    queries : list Query }.

(** The [{min, max}] object of lines 76 to 89; the object of line 96 has
    no [min]. *)
Record QueryData : Type := mkQueryData
  { min : option number;
    max : number }.

(** An absent property reads as [undefined], which compares as [NaN]. *)
Definition toNumber (v : option number) : number :=
  match v with
  | Some n => n
  | None => NaN
  end.

(** Reading a property of [undefined] throws a TypeError. *)
Inductive JsError : Type := TypeError.

Inductive Completion : Type :=
| Normal (h : Host)
| Throw (e : JsError) (h : Host).

(** ** The attribute applier (lines 137 to 196) *)

(** applyStyle (line 193) *)
Definition applyStyle (name value : string) (element : option string)
    (h : Host) : Host :=
  match element with
  | Some id =>
      mkHost (alter (setStyle name value) id (document h))
             (writes h ++ [StyleWrite id name value])
  | None => h
  end.

(** applyAttribute (line 183) *)
Definition applyAttribute (name value : string) (element : option string)
    (h : Host) : Host :=
  match element with
  | Some id =>
      mkHost (alter (setAttribute name value) id (document h))
             (writes h ++ [AttributeWrite id name value])
  | None => h
  end.

Module TranslateData.
Record t : Type := mk
  { x : option string;
    y : option string }.
Definition empty : t := mk None None.
(** [Object.keys(translateData).length] is not zero *)
Definition hasKeys (d : t) : bool :=
  match x d, y d with
  | None, None => false
  | _, _ => true
  end.
End TranslateData.

(** The variables of one turn of the outer loop of [applyData]. *)
Record Locals : Type := mkLocals
  { translateData : TranslateData.t;
    transformValue : string }.

(** The [switch] of lines 145 to 161, for one attribute. *)
Definition applyAttr (element : option string) (attr attrValue : string)
    (st : Locals * Host) : Locals * Host :=
  let '(l, h) := st in
  if String.eqb attr "x" then
    (mkLocals (TranslateData.mk (Some attrValue)
                 (TranslateData.y (translateData l)))
              (transformValue l), h)
  else if String.eqb attr "y" then
    (mkLocals (TranslateData.mk (TranslateData.x (translateData l))
                 (Some attrValue))
              (transformValue l), h)
  else if String.eqb attr "display" then
    (l, applyStyle "display" attrValue element h)
  else if String.eqb attr "fill" then
    (l, applyStyle "fill" attrValue element h)
  else if String.eqb attr "transform" then
    (mkLocals (translateData l) attrValue, h)
  else (l, h).

(** [c ? c : 0] inside the string concatenation of line 165 *)
Definition coordinate (c : option string) : string :=
  match c with
  | Some v => if truthy v then v else "0"
  | None => "0"
  end.

(** Line 165 *)
Definition translateValueOf (d : TranslateData.t) : option string :=
  if TranslateData.hasKeys d then
    Some ("translate(" +:+ coordinate (TranslateData.x d) +:+ ","
            +:+ coordinate (TranslateData.y d) +:+ ")")
  else None.

(** [null] is falsy, a string is truthy when not empty. *)
Definition truthyValue (v : option string) : bool :=
  match v with
  | Some s => truthy s
  | None => false
  end.

(** Lines 166 to 171: the transform composer. *)
Definition composeTransform (transformValue : string)
    (translateValue : option string) : string :=
  if truthy transformValue then
    match translateValue with
    | Some t =>
        if truthy t then
          if includes "translate" transformValue
          then replace transformValue t
          else transformValue +:+ " " +:+ t
        else transformValue
    | None => transformValue
    end
  else
    match translateValue with
    | Some t => if truthy t then t else ""
    | None => ""
    end.

(** One turn of the outer loop of [applyData] (lines 139 to 174). *)
Definition applyElement (h : Host) (entry : string * list (string * string))
    : Host :=
  let '(el, elAttributes) := entry in
  let element := getElementById el h in
  let '(l, h1) :=
    foldl (fun st '(attr, attrValue) => applyAttr element attr attrValue st)
          (mkLocals TranslateData.empty "", h) elAttributes in
  let translateValue := translateValueOf (translateData l) in
  let transformValue := composeTransform (transformValue l) translateValue in
  if truthy transformValue
  then applyAttribute "transform" transformValue element h1
  else h1.

(** applyData (line 137), on values that are strings: with these no line
    of it throws, and an application ends in a host.  [Dyn.applyData]
    below is the function on values of every type. *)
Definition applyData (queryData : PatchSet) (h : Host) : Host :=
  foldl applyElement h queryData.

(** ** The variation resolver (lines 67 to 130) *)

(** [query.query == "default"] *)
Definition isDefault (q : Query) : bool := String.eqb (query q) "default".

(** [parseInt(query.query.substr(1))] *)
Definition threshold (q : Query) : number := parseInt (substr1 (query q)).

(** applyQuery (line 125); [defaultQuery] is [undefined] when the list has
    no default entry, and reading its [data] throws. *)
Definition applyQuery (q : Query) (defaultQuery : option Query) (h : Host)
    : Completion :=
  match defaultQuery with
  | Some d => Normal (applyData (data q) (applyData (data d) h))
  | None => Throw TypeError h
  end.

(** applyContainerQuery (line 107) *)
Definition applyContainerQuery (this : NuSvg) (d : QueryData) (q : Query)
    (defaultQuery : option Query) (isLast : bool) (h : Host) : Completion :=
  let w := width (svgComposition this) in
  if isLast then
    if gt w (max d) then
      match defaultQuery with
      | Some dq => Normal (applyData (data dq) h)
      | None => Throw TypeError h
      end
    else Normal h
  else
    if gt w (toNumber (min d)) && lt w (max d)
    then applyQuery q defaultQuery h
    else Normal h.

(** Lines 76 to 89: the bounds of the entry [q] at index [queryIndex].
    [None] stands for the TypeError of line 85 when there is no entry at
    [queryIndex - 1]. *)
Definition queryDataOf (this : NuSvg) (q : Query) (queryIndex : nat)
    : option QueryData :=
  let max := if isDefault q then ofZ 0 else threshold q in
  if isDefault q || Nat.eqb queryIndex 0 then
    Some (mkQueryData (Some (ofZ 0)) max)
  else
    match queries this !! (queryIndex - 1)%nat with
    | Some prevQueryObject =>
        if isDefault prevQueryObject
        then Some (mkQueryData (Some (ofZ 0)) max)
        else Some (mkQueryData (Some (threshold prevQueryObject)) max)
    | None => None
    end.

(** The callback of the [forEach] of line 74. *)
Definition visit (this : NuSvg) (defaultQuery : option Query) (q : Query)
    (queryIndex : nat) (h : Host) : Completion :=
  match queryDataOf this q queryIndex with
  | Some d => applyContainerQuery this d q defaultQuery false h
  | None => Throw TypeError h
  end.

(** [l.forEach(f)], from index [i] on; an exception ends the loop. *)
Fixpoint forEach (f : Query -> nat -> Host -> Completion) (l : list Query)
    (i : nat) (h : Host) : Completion :=
  match l with
  | [] => Normal h
  | q :: l' =>
      match f q i h with
      | Normal h' => forEach f l' (S i) h'
      | Throw e h' => Throw e h'
      end
  end.

(** process (line 67) *)
Definition process (this : NuSvg) (h : Host) : Completion :=
  let defaultQuery := head (List.filter isDefault (queries this)) in
  match forEach (visit this defaultQuery) (queries this) 0 h with
  | Normal h1 =>
      match last (queries this) with
      | Some lastQuery =>
          applyContainerQuery this (mkQueryData None (threshold lastQuery))
            lastQuery defaultQuery true h1
      | None => Throw TypeError h1
      end
  | Throw e h1 => Throw e h1
  end.

(** ** Definitions used to state the properties *)

(** The element a write goes to. *)
Definition writeElement (w : Write) : string :=
  match w with
  | StyleWrite e _ _ => e
  | AttributeWrite e _ _ => e
  end.

(** [h'] is [h] after some more writes, all of them to elements that
    satisfy [P]; no element has appeared or disappeared. *)
Definition wrote (P : string -> Prop) (h h' : Host) : Prop :=
  (exists ws, writes h' = writes h ++ ws
              /\ Forall (fun w => P (writeElement w)) ws)
  /\ forall k, document h' !! k = None <-> document h !! k = None.

(** The test of line 114 for the bounds [d]. *)
Definition inRange (this : NuSvg) (d : QueryData) : bool :=
  gt (width (svgComposition this)) (toNumber (min d))
  && lt (width (svgComposition this)) (max d).

(** The lower bound as section 3 of the spec words it: the threshold of
    the previous non-default entry, the default entry being skipped
    wherever it is, and 0 when no non-default entry comes before. *)
Definition specMin (l : list Query) (i : nat) : number :=
  match last (List.filter (fun q => negb (isDefault q)) (take i l)) with
  | Some p => threshold p
  | None => ofZ 0
  end.

(** No entry has a threshold below that of an entry in front of it.  An
    entry whose threshold is [NaN] (the default entry is one) is not
    constrained. *)
Fixpoint ascending (l : list Query) : bool :=
  match l with
  | [] => true
  | q :: l' =>
      forallb (fun q' => negb (lt (threshold q') (threshold q))) l'
      && ascending l'
  end.

(** No code unit of [s] is a line terminator. *)
Fixpoint lineFree (s : string) : bool :=
  match s with
  | EmptyString => true
  | String c r => negb (isLineTerminator c) && lineFree r
  end.

(** No code unit of [s] is a dollar sign. *)
Fixpoint dollarFree (s : string) : bool :=
  match s with
  | EmptyString => true
  | String c r => negb (Ascii.eqb c "$") && dollarFree r
  end.

(** A coordinate without dollar sign and without line terminator; every
    rendering of a number is one. *)
Definition plainCoordinate (c : option string) : bool :=
  match c with
  | Some v => dollarFree v && lineFree v
  | None => true
  end.

(** The code unit [c] does not occur in [s]. *)
Fixpoint without (c : ascii) (s : string) : bool :=
  match s with
  | EmptyString => true
  | String a r => negb (Ascii.eqb a c) && without c r
  end.

(** The fill of element [id], when the element exists. *)
Definition fillOf (id : string) (h : Host) : option (option string) :=
  (fun e => style e !! "fill") <$> (document h !! id).

(** The configuration of section 8 of the spec, and a document that has
    the element [a]. *)
Definition redBlue : list Query :=
  [ mkQuery "default" [("a", [("fill", "red")])];
    mkQuery ">400" [("a", [("fill", "blue")])] ].

Definition nuSvg (w : Z) (l : list Query) : NuSvg :=
  mkNuSvg (mkComposition (ofZ w)) l.

Definition page : Host :=
  mkHost {[ "a" := mkElement ∅ ∅ ]} [].

(** A list with the default entry between two thresholds. *)
Definition defaultInside : list Query :=
  [ mkQuery ">300" [("a", [("fill", "blue")])];
    mkQuery "default" [("a", [("fill", "red")])];
    mkQuery ">500" [("a", [("fill", "green")])] ].

(** A list with a threshold that is not a number. *)
Definition malformed : list Query :=
  [ mkQuery "default" [("a", [("fill", "red")])];
    mkQuery ">abc" [("a", [("fill", "blue")])] ].

(** ** The rate limiter (lines 213 to 256)

    [NuSvg.throttle(func, wait, options)] returns a closure over the
    variables [timeout], [context], [args], [result] and [previous]; the
    record [State] holds them.  The receiver and the arguments of a call
    travel together, so one value of type [A] stands for [context] and
    [args]; [None] stands for the pair of nulls.

    The clock is an input: [now] is what [NuSvg.now()] returns when the
    closure or the timer callback runs (a number of milliseconds, an
    integer).  [timeout] is the pending timer; the code only tests whether
    it is set, and the model keeps there the time at which the timer is
    due (the time of [setTimeout] plus the delay).  [calls] is the journal
    of the invocations of [func], oldest first, with the time of each; the
    code never reads it.  [func] is taken not to call the closure
    itself. *)

Module Throttle.

(** [leading] is false when [options.leading === false], [trailing] is
    false when [options.trailing === false]; an absent option is true. *)
Record Options : Type := mkOptions
  { leading : bool;
    trailing : bool }.

(** The options of line 25, where [init] wraps [onResize]: no call on
    the leading edge. *)
Definition resizeOptions : Options := mkOptions false true.

Section Closure.

Variables A R : Type.
Variable func : option A -> R.
Variable wait : Z.
Variable options : Options.

Record State : Type := mkState
  { timeout : option Z;
    args : option A;
    result : option R;
    previous : Z;
    calls : list (Z * option A) }.

(** The variables when [throttle] returns (lines 214 to 216). *)
Definition init : State := mkState None None None 0 [].

(** later (line 218), run at time [now] when the timer fires. *)
Definition later (now : Z) (s : State) : State :=
  mkState None None
          (Some (func (args s)))
          (if leading options then now else 0)
          (calls s ++ [(now, args s)]).

(** throttled (line 225), called at time [now] with [a]; the second
    component is the value returned. *)
Definition throttled (now : Z) (a : A) (s : State) : State * option R :=
  let previous1 :=
    if (previous s =? 0) && negb (leading options) then now else previous s in
  let remaining := wait - (now - previous1) in
  if (remaining <=? 0) || (wait <? remaining) then
    let r := func (Some a) in
    (mkState None None (Some r) now (calls s ++ [(now, Some a)]), Some r)
  else
    match timeout s with
    | None =>
        if trailing options
        then (mkState (Some (now + remaining)) (Some a) (result s) previous1
                      (calls s), result s)
        else (mkState None (Some a) (result s) previous1 (calls s), result s)
    | Some due =>
        (mkState (Some due) (Some a) (result s) previous1 (calls s), result s)
    end.

(** throttled.cancel (line 245) *)
Definition cancel (s : State) : State :=
  mkState None None (result s) 0 (calls s).

(** What happens to the closure: a call, or the timer firing. *)
Inductive Event : Type :=
| Call (now : Z) (a : A)
| Fire (now : Z).

Definition time (e : Event) : Z :=
  match e with
  | Call now _ => now
  | Fire now => now
  end.

Definition step (s : State) (e : Event) : State :=
  match e with
  | Call now a => (throttled now a s).1
  | Fire now => later now s
  end.

Definition run (s : State) (es : list Event) : State := foldl step s es.

(** A schedule the platform can produce after time [clock]: the clock
    does not go back, and the timer fires only while it is pending and not
    before it is due. *)
Fixpoint schedule (clock : Z) (s : State) (es : list Event) : bool :=
  match es with
  | [] => true
  | e :: es' =>
      (clock <=? time e)
      && match e with
         | Call _ _ => true
         | Fire now =>
             match timeout s with
             | Some due => due <=? now
             | None => false
             end
         end
      && schedule (time e) (step s e) es'
  end.

(** Two invocations in a row are at least [wait] apart. *)
Fixpoint spaced (l : list (Z * option A)) : bool :=
  match l with
  | [] => true
  | (t, _) :: l' =>
      match l' with
      | [] => true
      | (t', _) :: _ => (t + wait <=? t') && spaced l'
      end
  end.

(** What holds of the closure at the time [T] of the last event: the
    last invocation is not after the time in [previous], unless
    [previous] has been reset, and a pending timer is due [wait] or more
    after the last invocation. *)
Definition settled (T : Z) (s : State) : Prop :=
  0 <= T
  /\ previous s <= T
  /\ spaced (calls s) = true
  /\ forall L b, last (calls s) = Some (L, b) ->
       L <= T
       /\ (L <= previous s \/ (previous s = 0 /\ leading options = false))
       /\ forall due, timeout s = Some due -> L + wait <= due.

(** The arguments of the most recent call among [es], [acc] when [es]
    has no call. *)
Definition latest (acc : option A) (es : list Event) : option A :=
  foldl (fun acc e => match e with
                      | Call _ a => Some a
                      | Fire _ => acc
                      end) acc es.

End Closure.

Arguments mkState {A R}.
Arguments timeout {A R}.
Arguments args {A R}.
Arguments result {A R}.
Arguments previous {A R}.
Arguments calls {A R}.
Arguments init {A R}.
Arguments later {A R}.
Arguments throttled {A R}.
Arguments cancel {A R}.
Arguments Call {A}.
Arguments Fire {A}.
Arguments time {A}.
Arguments step {A R}.
Arguments run {A R}.
Arguments schedule {A R}.
Arguments spaced {A}.
Arguments settled {A R}.
Arguments latest {A}.

End Throttle.

(** ** More definitions used to state the properties *)

(** The attribute names that the [switch] of line 145 has a case for. *)
Definition recognized (attr : string) : bool :=
  String.eqb attr "x" || String.eqb attr "y" || String.eqb attr "display"
  || String.eqb attr "fill" || String.eqb attr "transform".

(** The effect of one write of the journal on a document. *)
Definition perform (d : gmap string Element) (w : Write)
    : gmap string Element :=
  match w with
  | StyleWrite id name value => alter (setStyle name value) id d
  | AttributeWrite id name value => alter (setAttribute name value) id d
  end.

(** The host of a completion, normal or not. *)
Definition hostOf (c : Completion) : Host :=
  match c with
  | Normal h => h
  | Throw _ h => h
  end.

(** A write that the attribute applier can make: a style write of
    [display] or [fill], or an attribute write of [transform]. *)
Definition applierWrite (w : Write) : bool :=
  match w with
  | StyleWrite _ name _ => String.eqb name "display" || String.eqb name "fill"
  | AttributeWrite _ name _ => String.eqb name "transform"
  end.

(** Every code unit of [s] is a decimal digit. *)
Fixpoint decimal (s : string) : bool :=
  match s with
  | EmptyString => true
  | String c r =>
      match digitValue 10 c with
      | Some _ => decimal r
      | None => false
      end
  end.

(** *** What [applyData] writes, said without loops

    The definitions below describe the journal of one application of a
    patch set; the properties compare them with [applyData]. *)

(** The element [el] is in the document. *)
Definition present (h : Host) (el : string) : bool :=
  match document h !! el with
  | Some _ => true
  | None => false
  end.

(** The value of the last attribute of [attrs] named [name]. *)
Fixpoint lastValue (name : string) (attrs : list (string * string))
    : option string :=
  match attrs with
  | [] => None
  | (a, v) :: r =>
      match lastValue name r with
      | Some v' => Some v'
      | None => if String.eqb a name then Some v else None
      end
  end.

(** One style write for each [display] and each [fill] of [attrs], in the
    order of [attrs]. *)
Fixpoint styleWrites (el : string) (attrs : list (string * string))
    : list Write :=
  match attrs with
  | [] => []
  | (a, v) :: r =>
      if String.eqb a "display" || String.eqb a "fill"
      then StyleWrite el a v :: styleWrites el r
      else styleWrites el r
  end.

(** The transform of a patch: its [transform] composed with the translate
    value of its [x] and [y]. *)
Definition transformOf (attrs : list (string * string)) : string :=
  composeTransform
    (default "" (lastValue "transform" attrs))
    (translateValueOf
       (TranslateData.mk (lastValue "x" attrs) (lastValue "y" attrs))).

(** The writes for one element of the document: its style writes, then
    one write of the attribute [transform] unless the transform is
    empty. *)
Definition elementJournal (el : string) (attrs : list (string * string))
    : list Write :=
  styleWrites el attrs
  ++ (if truthy (transformOf attrs)
      then [AttributeWrite el "transform" (transformOf attrs)]
      else []).

(** The writes for a patch set, given which ids are in the document. *)
Fixpoint journal (inDocument : string -> bool) (queryData : PatchSet)
    : list Write :=
  match queryData with
  | [] => []
  | (el, attrs) :: r =>
      (if inDocument el then elementJournal el attrs else [])
      ++ journal inDocument r
  end.

(** The last value written to the style property [name] of [el]. *)
Fixpoint lastStyle (el name : string) (ws : list Write) : option string :=
  match ws with
  | [] => None
  | w :: r =>
      match lastStyle el name r with
      | Some v => Some v
      | None =>
          match w with
          | StyleWrite e n v =>
              if String.eqb e el && String.eqb n name then Some v else None
          | AttributeWrite _ _ _ => None
          end
      end
  end.

(** The last value written to the attribute [name] of [el]. *)
Fixpoint lastAttribute (el name : string) (ws : list Write) : option string :=
  match ws with
  | [] => None
  | w :: r =>
      match lastAttribute el name r with
      | Some v => Some v
      | None =>
          match w with
          | AttributeWrite e n v =>
              if String.eqb e el && String.eqb n name then Some v else None
          | StyleWrite _ _ _ => None
          end
      end
  end.

(** The style property [name] of the element [el], and its attribute
    [name]; [None] when the element or the property is not there. *)
Definition styleOf (el name : string) (d : gmap string Element)
    : option string :=
  match d !! el with
  | Some e => style e !! name
  | None => None
  end.

Definition attributeOf (el name : string) (d : gmap string Element)
    : option string :=
  match d !! el with
  | Some e => attributes e !! name
  | None => None
  end.

(** The patch sets of a list, applied one after the other. *)
Definition applyAll (ds : list PatchSet) (h : Host) : Host :=
  foldl (fun h d => applyData d h) h ds.

(** The same patch set without the attributes that the [switch] has no
    case for. *)
Definition onlyRecognized (queryData : PatchSet) : PatchSet :=
  map (fun '(el, attrs) =>
         (el, List.filter (fun '(a, _) => recognized a) attrs))
      queryData.

(** ** Attribute values that are not strings

    The definitions above take every attribute value of a patch for a
    string.  The module [Dyn] repeats the attribute applier and the
    resolver for values of the other types as well: there the call of
    [indexOf] on line 168 can fail, so an application of a patch set ends
    in a [Completion].

    A value is a string, or a value that is not a string and has no
    method [indexOf]: a number, a boolean, [undefined], [null], an object
    literal with no method of its own.  An array has [indexOf] and is not
    among them.  The code never computes with such a value: it tests it
    for truthiness (lines 165, 166, 173) and uses it as a string (in the
    concatenation of line 165, which a falsy value does not reach, and
    in the writes), so the value is given by its truthiness and by that
    string.  A truthy value of this kind is not loosely equal to the
    empty string. *)

Module Dyn.

Inductive Value : Type :=
| Str (s : string)
| Other (truthy : bool) (text : string).

Definition truthy (v : Value) : bool :=
  match v with
  | Str s => JsString.truthy s
  | Other t _ => t
  end.

(** The string that a value is used as. *)
Definition text (v : Value) : string :=
  match v with
  | Str s => s
  | Other _ s => s
  end.

Abbreviation ElementPatch := (list (string * Value)).
Abbreviation PatchSet := (list (string * list (string * Value))).

Record Query : Type := mkQuery
  { query : string;
    data : PatchSet }.

Record NuSvg : Type := mkNuSvg
  { svgComposition : SvgComposition;
    queries : list Query }.

Module TranslateData.
Record t : Type := mk
  { x : option Value;
    y : option Value }.
Definition empty : t := mk None None.
(** [Object.keys(translateData).length] is not zero *)
Definition hasKeys (d : t) : bool :=
  match x d, y d with
  | None, None => false
  | _, _ => true
  end.
End TranslateData.

Record Locals : Type := mkLocals
  { translateData : TranslateData.t;
    transformValue : Value }.

(** The [switch] of lines 145 to 161, for one attribute. *)
Definition applyAttr (element : option string) (attr : string)
    (attrValue : Value) (st : Locals * Host) : Locals * Host :=
  let '(l, h) := st in
  if String.eqb attr "x" then
    (mkLocals (TranslateData.mk (Some attrValue)
                 (TranslateData.y (translateData l)))
              (transformValue l), h)
  else if String.eqb attr "y" then
    (mkLocals (TranslateData.mk (TranslateData.x (translateData l))
                 (Some attrValue))
              (transformValue l), h)
  else if String.eqb attr "display" then
    (l, applyStyle "display" (text attrValue) element h)
  else if String.eqb attr "fill" then
    (l, applyStyle "fill" (text attrValue) element h)
  else if String.eqb attr "transform" then
    (mkLocals (translateData l) attrValue, h)
  else (l, h).

(** [c ? c : 0] inside the string concatenation of line 165 *)
Definition coordinate (c : option Value) : string :=
  match c with
  | Some v => if truthy v then text v else "0"
  | None => "0"
  end.

(** Line 165 *)
Definition translateValueOf (d : TranslateData.t) : option string :=
  if TranslateData.hasKeys d then
    Some ("translate(" +:+ coordinate (TranslateData.x d) +:+ ","
            +:+ coordinate (TranslateData.y d) +:+ ")")
  else None.

(** Lines 166 to 171.  [None] stands for the TypeError of line 168:
    [transformValue.indexOf] is called on a value that has no such
    method. *)
Definition composeTransform (transformValue : Value)
    (translateValue : option string) : option Value :=
  if truthy transformValue then
    match translateValue with
    | Some t =>
        if JsString.truthy t then
          match transformValue with
          | Str e =>
              Some (Str (if includes "translate" e
                         then replace e t
                         else e +:+ " " +:+ t))
          | Other _ _ => None
          end
        else Some transformValue
    | None => Some transformValue
    end
  else
    match translateValue with
    | Some t => Some (Str (if JsString.truthy t then t else ""))
    | None => Some (Str "")
    end.

(** One turn of the outer loop of [applyData] (lines 139 to 174).  The
    lines 165 to 171 run whether the element was found or not. *)
Definition applyElement (h : Host) (entry : string * list (string * Value))
    : Completion :=
  let '(el, elAttributes) := entry in
  let element := getElementById el h in
  let '(l, h1) :=
    foldl (fun st '(attr, attrValue) => applyAttr element attr attrValue st)
          (mkLocals TranslateData.empty (Str ""), h) elAttributes in
  let translateValue := translateValueOf (translateData l) in
  match composeTransform (transformValue l) translateValue with
  | None => Throw TypeError h1
  | Some transformValue =>
      if truthy transformValue
      then Normal (applyAttribute "transform" (text transformValue) element h1)
      else Normal h1
  end.

(** applyData (line 137); an exception ends the loop. *)
Fixpoint applyData (queryData : PatchSet) (h : Host) : Completion :=
  match queryData with
  | [] => Normal h
  | entry :: r =>
      match applyElement h entry with
      | Normal h' => applyData r h'
      | Throw e h' => Throw e h'
      end
  end.

(** [query.query == "default"] *)
Definition isDefault (q : Query) : bool := String.eqb (query q) "default".

(** [parseInt(query.query.substr(1))] *)
Definition threshold (q : Query) : number := parseInt (substr1 (query q)).

(** applyQuery (line 125) *)
Definition applyQuery (q : Query) (defaultQuery : option Query) (h : Host)
    : Completion :=
  match defaultQuery with
  | Some d =>
      match applyData (data d) h with
      | Normal h' => applyData (data q) h'
      | Throw e h' => Throw e h'
      end
  | None => Throw TypeError h
  end.

(** applyContainerQuery (line 107) *)
Definition applyContainerQuery (this : NuSvg) (d : QueryData) (q : Query)
    (defaultQuery : option Query) (isLast : bool) (h : Host) : Completion :=
  let w := width (svgComposition this) in
  if isLast then
    if gt w (max d) then
      match defaultQuery with
      | Some dq => applyData (data dq) h
      | None => Throw TypeError h
      end
    else Normal h
  else
    if gt w (toNumber (min d)) && lt w (max d)
    then applyQuery q defaultQuery h
    else Normal h.

(** Lines 76 to 89 *)
Definition queryDataOf (this : NuSvg) (q : Query) (queryIndex : nat)
    : option QueryData :=
  let max := if isDefault q then ofZ 0 else threshold q in
  if isDefault q || Nat.eqb queryIndex 0 then
    Some (mkQueryData (Some (ofZ 0)) max)
  else
    match queries this !! (queryIndex - 1)%nat with
    | Some prevQueryObject =>
        if isDefault prevQueryObject
        then Some (mkQueryData (Some (ofZ 0)) max)
        else Some (mkQueryData (Some (threshold prevQueryObject)) max)
    | None => None
    end.

(** The callback of the [forEach] of line 74. *)
Definition visit (this : NuSvg) (defaultQuery : option Query) (q : Query)
    (queryIndex : nat) (h : Host) : Completion :=
  match queryDataOf this q queryIndex with
  | Some d => applyContainerQuery this d q defaultQuery false h
  | None => Throw TypeError h
  end.

(** [l.forEach(f)], from index [i] on; an exception ends the loop. *)
Fixpoint forEach (f : Query -> nat -> Host -> Completion) (l : list Query)
    (i : nat) (h : Host) : Completion :=
  match l with
  | [] => Normal h
  | q :: l' =>
      match f q i h with
      | Normal h' => forEach f l' (S i) h'
      | Throw e h' => Throw e h'
      end
  end.

(** process (line 67) *)
Definition process (this : NuSvg) (h : Host) : Completion :=
  let defaultQuery := head (List.filter isDefault (queries this)) in
  match forEach (visit this defaultQuery) (queries this) 0 h with
  | Normal h1 =>
      match last (queries this) with
      | Some lastQuery =>
          applyContainerQuery this (mkQueryData None (threshold lastQuery))
            lastQuery defaultQuery true h1
      | None => Throw TypeError h1
      end
  | Throw e h1 => Throw e h1
  end.

(** *** Definitions used to state the properties of [Dyn] *)

(** The test of line 114 for the bounds [d]. *)
Definition inRange (this : NuSvg) (d : QueryData) : bool :=
  gt (width (svgComposition this)) (toNumber (min d))
  && lt (width (svgComposition this)) (max d).

(** The value of the last attribute of [attrs] named [name]. *)
Fixpoint lastValue (name : string) (attrs : list (string * Value))
    : option Value :=
  match attrs with
  | [] => None
  | (a, v) :: r =>
      match lastValue name r with
      | Some v' => Some v'
      | None => if String.eqb a name then Some v else None
      end
  end.

(** One style write for each [display] and each [fill] of [attrs]. *)
Fixpoint styleWrites (el : string) (attrs : list (string * Value))
    : list Write :=
  match attrs with
  | [] => []
  | (a, v) :: r =>
      if String.eqb a "display" || String.eqb a "fill"
      then StyleWrite el a (text v) :: styleWrites el r
      else styleWrites el r
  end.

(** The transform of a patch, [None] when composing it throws. *)
Definition transformOf (attrs : list (string * Value)) : option Value :=
  composeTransform
    (default (Str "") (lastValue "transform" attrs))
    (translateValueOf
       (TranslateData.mk (lastValue "x" attrs) (lastValue "y" attrs))).

(** The patch gives a truthy transform that is not a string together
    with [x] or [y]: line 168 throws. *)
Definition throws (attrs : list (string * Value)) : bool :=
  match transformOf attrs with
  | None => true
  | Some _ => false
  end.

(** No patch of the patch set throws. *)
Definition safe (queryData : PatchSet) : bool :=
  forallb (fun entry => negb (throws entry.2)) queryData.

(** Every attribute value of the patch is a string. *)
Definition strings (attrs : list (string * Value)) : bool :=
  forallb (fun a => match a.2 with Str _ => true | Other _ _ => false end)
          attrs.

(** The writes for one element of the document. *)
Definition elementJournal (el : string) (attrs : list (string * Value))
    : list Write :=
  styleWrites el attrs
  ++ match transformOf attrs with
     | Some v =>
         if truthy v then [AttributeWrite el "transform" (text v)] else []
     | None => []
     end.

(** The writes for a patch set, given which ids are in the document. *)
Fixpoint journal (inDocument : string -> bool) (queryData : PatchSet)
    : list Write :=
  match queryData with
  | [] => []
  | (el, attrs) :: r =>
      (if inDocument el then elementJournal el attrs else [])
      ++ journal inDocument r
  end.

(** The same patch set with the values as strings of [Dyn]. *)
Definition ofStrings (queryData : list (string * list (string * string)))
    : PatchSet :=
  map (fun '(el, attrs) => (el, map (fun '(a, v) => (a, Str v)) attrs))
      queryData.

End Dyn.

(** An entry and a component whose attribute values are all strings, as
    an entry and a component of [Dyn]. *)
Definition dynQuery (q : Query) : Dyn.Query :=
  Dyn.mkQuery (query q) (Dyn.ofStrings (data q)).

Definition dynNuSvg (this : NuSvg) : Dyn.NuSvg :=
  Dyn.mkNuSvg (svgComposition this) (map dynQuery (queries this)).

(** A list whose default entry gives [a] a fill, an [x] and the number 5
    as transform, and a document that has the element [a]. *)
Definition numberTransform : list Dyn.Query :=
  [ Dyn.mkQuery "default"
      [("a", [("fill", Dyn.Str "red"); ("x", Dyn.Str "1");
              ("transform", Dyn.Other true "5")])];
    Dyn.mkQuery ">400" [("a", [("fill", Dyn.Str "blue")])] ].

(** A list whose entry [>400] touches an element that the default entry
    does not mention, and a document that has both elements. *)
Definition otherElement : list Query :=
  [ mkQuery "default" [("a", [("fill", "red")])];
    mkQuery ">400" [("b", [("display", "none"); ("x", "5")])] ].

Definition twoElements : Host :=
  mkHost {[ "a" := mkElement ∅ ∅; "b" := mkElement ∅ ∅ ]} [].

(** * Properties *)

(** ** The platform functions on examples *)

Example parseInt_400 : parseInt (substr1 ">400") = ofZ 400.
Proof. reflexivity. Qed.

Example parseInt_abc : parseInt (substr1 ">abc") = NaN.
Proof. reflexivity. Qed.

Example parseInt_efault : parseInt (substr1 "default") = NaN.
Proof. reflexivity. Qed.

Example parseInt_hex : parseInt " -0x1Fz" = ofZ (-31).
Proof. reflexivity. Qed.

Example parseInt_12abc : parseInt "12abc" = ofZ 12.
Proof. reflexivity. Qed.

Example replace_patterns :
  replace "a translate(1) b" "[$&|$1|$01|$10|$2|$$|$`|$'|$0|$00|$]" =
  "a [translate(1)|1|1|10|$2|$|a | b|$0|$00|$] b".
Proof. reflexivity. Qed.

Example compose_append :
  composeTransform "rotate(45)" (Some "translate(10,5)")
  = "rotate(45) translate(10,5)".
Proof. reflexivity. Qed.

Example compose_empty :
  composeTransform "" (Some "translate(0,5)") = "translate(0,5)"
  /\ composeTransform "scale(2)" None = "scale(2)".
Proof. split; reflexivity. Qed.

(** ** Comparisons *)

Lemma Qltb_lt (x y : Q) : Qltb x y = true <-> (x < y)%Q.
Proof. unfold Qltb, Qlt. apply Z.ltb_lt. Qed.

Lemma Qltb_ge (x y : Q) : Qltb x y = false <-> (y <= x)%Q.
Proof. unfold Qltb, Qle. rewrite Z.ltb_ge. reflexivity. Qed.

Lemma lt_NaN_r (n : number) : lt n NaN = false.
Proof. destruct n; reflexivity. Qed.

Lemma lt_NaN_l (n : number) : lt NaN n = false.
Proof. reflexivity. Qed.

Lemma lt_true (a b : number) :
  lt a b = true <-> exists x y, a = Num x /\ b = Num y /\ (x < y)%Q.
Proof.
  split.
  - destruct a as [|x], b as [|y]; simpl; try discriminate.
    intros H. exists x, y. rewrite <- Qltb_lt. auto.
  - intros (x & y & -> & -> & H). simpl. apply Qltb_lt, H.
Qed.

Lemma lt_irrefl (a : number) : lt a a = false.
Proof.
  destruct a as [|x]; [reflexivity|]. simpl. apply Qltb_ge. lra.
Qed.

Lemma lt_asym (a b : number) : lt a b = true -> lt b a = false.
Proof.
  destruct a as [|x], b as [|y]; simpl; try discriminate.
  rewrite Qltb_lt, Qltb_ge. lra.
Qed.

Lemma lt_trans (a b c : number) :
  lt a b = true -> lt b c = true -> lt a c = true.
Proof.
  destruct a as [|x], b as [|y], c as [|z]; simpl; try discriminate.
  rewrite !Qltb_lt. lra.
Qed.

(** An equal width is on neither side of a threshold. *)
Lemma lt_equal (x t : Q) :
  (x == t)%Q -> lt (Num x) (Num t) = false /\ lt (Num t) (Num x) = false.
Proof. intros E. simpl. rewrite !Qltb_ge. lra. Qed.

Lemma isDefault_threshold (q : Query) : isDefault q = true -> threshold q = NaN.
Proof.
  unfold isDefault, threshold. intros E%String.eqb_eq. rewrite E. reflexivity.
Qed.

Lemma isDefault_key (q : Query) : isDefault q = true <-> query q = "default".
Proof. apply String.eqb_eq. Qed.

(** ** The example of section 8 (C1) *)

(** C1, as stated, fails: at width 300 the entry [>400] is in range
    (0 < 300 < 400), so the code writes red and then blue, not red alone. *)
Lemma C1_counterexample :
  ~ ((exists h, process (nuSvg 300 redBlue) page = Normal h
                /\ writes h = [StyleWrite "a" "fill" "red"])
     /\ (exists h, process (nuSvg 500 redBlue) page = Normal h
                /\ writes h = [StyleWrite "a" "fill" "red";
                               StyleWrite "a" "fill" "blue"]
                /\ fillOf "a" h = Some (Some "blue"))).
Proof.
  intros [(h & P & W) _].
  vm_compute in P. injection P as <-. discriminate W.
Qed.

(** C1, amended: for the list [default: a.fill = red; >400: a.fill = blue]
    and a document that has the element [a], resolving at width 300 writes
    fill red and then fill blue on [a] (the fill observed afterwards is
    blue), and resolving at width 500 writes fill red alone (the fill
    observed afterwards is red). *)
Theorem C1_red_blue_by_width (h : Host) (e : Element) :
  document h !! "a" = Some e ->
  (exists h1, process (nuSvg 300 redBlue) h = Normal h1
     /\ writes h1 = writes h ++ [StyleWrite "a" "fill" "red";
                                 StyleWrite "a" "fill" "blue"]
     /\ fillOf "a" h1 = Some (Some "blue"))
  /\ (exists h2, process (nuSvg 500 redBlue) h = Normal h2
     /\ writes h2 = writes h ++ [StyleWrite "a" "fill" "red"]
     /\ fillOf "a" h2 = Some (Some "red")).
Proof.
  intros E. split; eexists; (split; [reflexivity|]).
  - cbn. unfold applyElement, getElementById. cbn. rewrite E. cbn.
    rewrite lookup_alter_eq, E. cbn. split.
    + rewrite <- app_assoc. reflexivity.
    + unfold fillOf. cbn. rewrite !lookup_alter_eq, E. cbn.
      rewrite lookup_insert_eq. reflexivity.
  - cbn. unfold applyElement, getElementById. cbn. rewrite E. cbn. split.
    + reflexivity.
    + unfold fillOf. cbn. rewrite !lookup_alter_eq, E. cbn.
      rewrite lookup_insert_eq. reflexivity.
Qed.

Lemma C1_red_blue_by_width_witness :
  document page !! "a" = Some (mkElement ∅ ∅)
  /\ exists h1, process (nuSvg 300 redBlue) page = Normal h1
     /\ writes h1 = writes page ++ [StyleWrite "a" "fill" "red";
                                    StyleWrite "a" "fill" "blue"]
     /\ fillOf "a" h1 = Some (Some "blue").
Proof.
  split; [reflexivity|].
  apply (C1_red_blue_by_width page (mkElement ∅ ∅)). reflexivity.
Defined.

(** ** The transform composer on the example of section 8 (C2) *)

(** C2: the group of the pattern is greedy, so the match that starts at
    [translate(] runs to the last closing parenthesis of the line and takes
    [scale(2)] with it.  The code composes [translate(1,1) scale(2)] with
    the offset (10, 5) into [translate(10,5)], where the claim keeps
    [scale(2)]. *)
Theorem C2_replace_takes_following_functions :
  translateValueOf (TranslateData.mk (Some "10") (Some "5"))
  = Some "translate(10,5)"
  /\ composeTransform "translate(1,1) scale(2)" (Some "translate(10,5)")
     = "translate(10,5)"
  /\ composeTransform "translate(1,1) scale(2)" (Some "translate(10,5)")
     <> "translate(10,5) scale(2)"
  /\ writes (applyData
               [("a", [("x", "10"); ("y", "5");
                       ("transform", "translate(1,1) scale(2)")])] page)
     = [AttributeWrite "a" "transform" "translate(10,5)"].
Proof. repeat split; try reflexivity. vm_compute. discriminate. Qed.

(** ** The bounds of an entry (C4) *)

Lemma queryDataOf_Some (this : NuSvg) (i : nat) (q : Query) :
  queries this !! i = Some q -> exists d, queryDataOf this q i = Some d.
Proof.
  intros L. unfold queryDataOf.
  destruct (isDefault q || Nat.eqb i 0) eqn:B; [eauto|].
  apply orb_false_iff in B as [_ B%Nat.eqb_neq].
  destruct (lookup_lt_is_Some_2 (queries this) (i - 1)%nat) as [p ->].
  - apply lookup_lt_Some in L. lia.
  - destruct (isDefault p); eauto.
Qed.

(** C4, as stated, fails: in the list [>300; default; >500] the previous
    non-default entry of [>500] is [>300], and the spec's lower bound is
    300, but the entry in front of [>500] is the default, and the code
    sets the lower bound to 0. *)
Lemma C4_counterexample :
  exists q d,
    defaultInside !! 2%nat = Some q
    /\ isDefault q = false
    /\ queryDataOf (nuSvg 100 defaultInside) q 2 = Some d
    /\ min d = Some (ofZ 0)
    /\ specMin defaultInside 2 = ofZ 300
    /\ min d <> Some (specMin defaultInside 2).
Proof.
  eexists _, _. repeat split; try reflexivity. vm_compute. discriminate.
Qed.

(** C4, amended: for every non-default entry the resolver takes as upper
    bound the integer parsed from the entry's own key after its first
    character, and as lower bound 0 when the entry is the first of the
    list or comes right after the default entry, and the threshold of the
    entry right in front of it otherwise, which is that entry's own upper
    bound (range continuity).  The default entry resets the lower bound;
    it is not skipped. *)
Theorem C4_bounds_from_entry_in_front (this : NuSvg) (i : nat) (q : Query) :
  queries this !! i = Some q ->
  isDefault q = false ->
  exists d,
    queryDataOf this q i = Some d
    /\ max d = parseInt (substr1 (query q))
    /\ (i = 0%nat -> min d = Some (ofZ 0))
    /\ (forall p, (0 < i)%nat -> queries this !! (i - 1)%nat = Some p ->
          isDefault p = true -> min d = Some (ofZ 0))
    /\ (forall p dp, (0 < i)%nat -> queries this !! (i - 1)%nat = Some p ->
          isDefault p = false -> queryDataOf this p (i - 1) = Some dp ->
          min d = Some (parseInt (substr1 (query p)))
          /\ min d = Some (max dp)).
Proof.
  intros L D. destruct (queryDataOf_Some this i q L) as [d Hd].
  exists d. split; [exact Hd|].
  unfold queryDataOf in Hd. rewrite D in Hd. simpl in Hd.
  destruct (Nat.eqb_spec i 0) as [->|N].
  - injection Hd as <-. repeat split; intros; try lia; reflexivity.
  - destruct (queries this !! (i - 1)%nat) as [p|] eqn:P; [|discriminate].
    destruct (isDefault p) eqn:Dp; injection Hd as <-; simpl.
    + repeat split; intros; try lia; try reflexivity; congruence.
    + split; [reflexivity|]. split; [lia|]. split; [congruence|].
      intros p' dp _ [= <-] _ Hdp. split; [reflexivity|].
      f_equal. unfold queryDataOf in Hdp. rewrite Dp in Hdp. simpl in Hdp.
      destruct (Nat.eqb (i - 1) 0); [injection Hdp as <-; reflexivity|].
      destruct (queries this !! (i - 1 - 1)%nat) as [r|]; [|discriminate].
      destruct (isDefault r); injection Hdp as <-; reflexivity.
Qed.

Lemma C4_bounds_from_entry_in_front_witness :
  let q := mkQuery ">500" [("a", [("fill", "green")])] in
  defaultInside !! 2%nat = Some q
  /\ isDefault q = false
  /\ exists d,
       queryDataOf (nuSvg 100 defaultInside) q 2 = Some d
       /\ max d = ofZ 500
       /\ min d = Some (ofZ 0).
Proof.
  intros q. split; [reflexivity|]. split; [reflexivity|].
  destruct (C4_bounds_from_entry_in_front (nuSvg 100 defaultInside) 2 q)
    as (d & Hd & Hmax & _ & Hmin & _); [reflexivity | reflexivity |].
  exists d. split; [exact Hd|]. split; [exact Hmax|].
  apply (Hmin (mkQuery "default" [("a", [("fill", "red")])]));
    [lia | reflexivity | reflexivity].
Defined.

(** ** Matching (C6) *)

Lemma applyContainerQuery_inRange (this : NuSvg) (d : QueryData) (q : Query)
    (dq : option Query) (h : Host) :
  applyContainerQuery this d q dq false h
  = if inRange this d then applyQuery q dq h else Normal h.
Proof. reflexivity. Qed.

Lemma inRange_true (this : NuSvg) (d : QueryData) :
  inRange this d = true <->
  exists lo hi x,
    toNumber (min d) = Num lo /\ max d = Num hi
    /\ width (svgComposition this) = Num x /\ (lo < x)%Q /\ (x < hi)%Q.
Proof.
  unfold inRange, gt. rewrite andb_true_iff, !lt_true. split.
  - intros [(lo & x & Hlo & Hx & L1) (x' & hi & Hx' & Hhi & L2)].
    exists lo, hi, x. rewrite Hx in Hx'. injection Hx' as <-. auto.
  - intros (lo & hi & x & Hlo & Hhi & Hx & L1 & L2).
    split; [exists lo, x | exists x, hi]; auto.
Qed.

(** The entry that follows a non-default entry has that entry's threshold
    as lower bound. *)
Lemma queryDataOf_next (this : NuSvg) (i : nat) (q q' : Query) (d' : QueryData) :
  queries this !! i = Some q -> isDefault q = false ->
  isDefault q' = false -> queryDataOf this q' (S i) = Some d' ->
  min d' = Some (threshold q) /\ max d' = threshold q'.
Proof.
  intros L D D' H. unfold queryDataOf in H. rewrite D' in H. simpl in H.
  rewrite Nat.sub_0_r, L, D in H. injection H as <-. split; reflexivity.
Qed.

Lemma queryDataOf_max (this : NuSvg) (i : nat) (q : Query) (d : QueryData) :
  isDefault q = false -> queryDataOf this q i = Some d -> max d = threshold q.
Proof.
  intros D H. unfold queryDataOf in H. rewrite D in H. simpl in H.
  destruct (Nat.eqb i 0); [injection H as <-; reflexivity|].
  destruct (queries this !! (i - 1)%nat) as [p|]; [|discriminate].
  destruct (isDefault p); injection H as <-; reflexivity.
Qed.



(** ** Steps of the loop that apply nothing *)

Lemma visit_out_of_range (this : NuSvg) (dq : option Query) (q : Query)
    (i : nat) (d : QueryData) (h : Host) :
  queryDataOf this q i = Some d -> inRange this d = false ->
  visit this dq q i h = Normal h.
Proof.
  intros Hd R. unfold visit. rewrite Hd, applyContainerQuery_inRange, R.
  reflexivity.
Qed.

(** The bounds of the default entry are 0 and 0, and no width is strictly
    between them. *)
Lemma visit_default (this : NuSvg) (dq : option Query) (q : Query)
    (i : nat) (h : Host) :
  isDefault q = true -> visit this dq q i h = Normal h.
Proof.
  intros D. apply (visit_out_of_range this dq q i (mkQueryData (Some (ofZ 0)) (ofZ 0)) h).
  - unfold queryDataOf. rewrite D. reflexivity.
  - unfold inRange, gt. cbn [min max toNumber].
    destruct (lt (ofZ 0) (width (svgComposition this))) eqn:E; [|reflexivity].
    apply lt_asym in E. rewrite E. reflexivity.
Qed.

Lemma visit_NaN (this : NuSvg) (dq : option Query) (q : Query) (i : nat)
    (h : Host) :
  queries this !! i = Some q -> isDefault q = false -> threshold q = NaN ->
  visit this dq q i h = Normal h.
Proof.
  intros L D T. destruct (queryDataOf_Some this i q L) as [d Hd].
  apply (visit_out_of_range this dq q i d h Hd). unfold inRange.
  rewrite (queryDataOf_max this i q d D Hd), T, lt_NaN_r.
  apply andb_false_r.
Qed.

Lemma visit_after_NaN (this : NuSvg) (dq : option Query) (q q' : Query)
    (i : nat) (h : Host) :
  queries this !! i = Some q -> isDefault q = false -> threshold q = NaN ->
  queries this !! S i = Some q' ->
  visit this dq q' (S i) h = Normal h.
Proof.
  intros L D T L'. destruct (isDefault q') eqn:D'.
  - apply visit_default, D'.
  - destruct (queryDataOf_Some this (S i) q' L') as [d' Hd'].
    apply (visit_out_of_range this dq q' (S i) d' h Hd'). unfold inRange, gt.
    destruct (queryDataOf_next this i q q' d' L D D' Hd') as [-> _].
    cbn [toNumber]. rewrite T. reflexivity.
Qed.

(** ** A key that is not a number (C5) *)

(** C5, as stated, fails: with the entry [>abc] in the list the cycle
    completes normally, and nothing is thrown to the caller. *)
Lemma C5_counterexample :
  process (nuSvg 300 malformed) page = Normal page
  /\ ~ (exists e h, process (nuSvg 300 malformed) page = Throw e h).
Proof.
  assert (P : process (nuSvg 300 malformed) page = Normal page)
    by (vm_compute; reflexivity).
  split; [exact P|]. intros (e & h & T). rewrite P in T. discriminate T.
Qed.

(** C5, amended: when the key of a non-default entry has a suffix from
    which [parseInt] reads no number, the threshold is [NaN] and no
    failure is raised.  For every width the step of the loop for that
    entry completes normally and applies nothing, the check of the upper
    boundary applies nothing when that entry is the last one, and the step
    for the entry after it applies nothing either. *)
Theorem C5_malformed_key_applies_nothing (this : NuSvg) (i : nat) (q : Query)
    (dq : option Query) (h : Host) :
  queries this !! i = Some q ->
  isDefault q = false ->
  parseInt (substr1 (query q)) = NaN ->
  visit this dq q i h = Normal h
  /\ applyContainerQuery this (mkQueryData None (threshold q)) q dq true h
     = Normal h
  /\ forall q' h', queries this !! S i = Some q' ->
       visit this dq q' (S i) h' = Normal h'.
Proof.
  intros L D T. fold (threshold q) in T. split; [|split].
  - apply visit_NaN; assumption.
  - unfold applyContainerQuery, gt. cbn [max]. rewrite T. reflexivity.
  - intros q' h' L'. apply (visit_after_NaN this dq q q' i h'); assumption.
Qed.

Lemma C5_malformed_key_applies_nothing_witness :
  let this := nuSvg 300 malformed in
  let q := mkQuery ">abc" [("a", [("fill", "blue")])] in
  queries this !! 1%nat = Some q
  /\ isDefault q = false
  /\ parseInt (substr1 (query q)) = NaN
  /\ visit this (Some (mkQuery "default" [("a", [("fill", "red")])])) q 1 page
     = Normal page.
Proof.
  intros this q. do 3 (split; [reflexivity|]).
  apply (C5_malformed_key_applies_nothing this 1 q); reflexivity.
Defined.

(** ** The loop with a default entry *)

Lemma forEach_visit_completes (this : NuSvg) (dq : Query) :
  forall (suf pre : list Query) (h : Host),
    queries this = pre ++ suf ->
    exists h', forEach (visit this (Some dq)) suf (length pre) h = Normal h'.
Proof.
  induction suf as [|q suf IH]; intros pre h E; simpl; [eauto|].
  destruct (queryDataOf_Some this (length pre) q) as [d Hd].
  { rewrite E. apply list_lookup_middle. reflexivity. }
  assert (E' : queries this = (pre ++ [q]) ++ suf)
    by (rewrite <- app_assoc; exact E).
  assert (N : S (length pre) = length (pre ++ [q]))
    by (rewrite length_app; simpl; lia).
  unfold visit. rewrite Hd, applyContainerQuery_inRange, N.
  destruct (inRange this d); [unfold applyQuery|]; apply IH, E'.
Qed.

Lemma default_found (l : list Query) (d : Query) :
  d ∈ l -> query d = "default" ->
  exists d', head (List.filter isDefault l) = Some d'.
Proof.
  intros I K. apply isDefault_key in K.
  induction I as [d l|d d0 l I IH]; simpl.
  - rewrite K. eauto.
  - destruct (isDefault d0); [eauto | exact (IH K)].
Qed.

(** ** Writes of the attribute applier *)

Lemma wrote_refl (P : string -> Prop) (h : Host) : wrote P h h.
Proof.
  split; [|reflexivity]. exists []. rewrite app_nil_r. split; constructor.
Qed.

Lemma wrote_trans (P : string -> Prop) (h1 h2 h3 : Host) :
  wrote P h1 h2 -> wrote P h2 h3 -> wrote P h1 h3.
Proof.
  intros [(ws & W & F) D] [(ws' & W' & F') D']. split.
  - exists (ws ++ ws'). rewrite W', W, app_assoc. split; [reflexivity|].
    apply Forall_app; auto.
  - intros k. rewrite D'. apply D.
Qed.

Lemma wrote_weaken (P Q : string -> Prop) (h h' : Host) :
  (forall id, P id -> Q id) -> wrote P h h' -> wrote Q h h'.
Proof.
  intros I [(ws & W & F) D]. split; [|exact D].
  exists ws. split; [exact W|]. eapply Forall_impl; [exact F|].
  intros w. apply I.
Qed.

Lemma applyStyle_wrote (name value : string) (element : option string)
    (h : Host) :
  wrote (fun id => element = Some id) h (applyStyle name value element h).
Proof.
  destruct element as [id|]; [|apply wrote_refl]. split; simpl.
  - eexists. split; [reflexivity|]. repeat constructor.
  - intros k. apply lookup_alter_None.
Qed.

Lemma applyAttribute_wrote (name value : string) (element : option string)
    (h : Host) :
  wrote (fun id => element = Some id) h (applyAttribute name value element h).
Proof.
  destruct element as [id|]; [|apply wrote_refl]. split; simpl.
  - eexists. split; [reflexivity|]. repeat constructor.
  - intros k. apply lookup_alter_None.
Qed.

Lemma applyAttr_wrote (element : option string) (attr attrValue : string)
    (l : Locals) (h : Host) :
  wrote (fun id => element = Some id) h
        (applyAttr element attr attrValue (l, h)).2.
Proof.
  unfold applyAttr.
  repeat (match goal with |- context [if ?b then _ else _] => destruct b end);
    simpl; try apply wrote_refl; apply applyStyle_wrote.
Qed.

Lemma attributes_wrote (element : option string)
    (elAttributes : list (string * string)) (st : Locals * Host) :
  wrote (fun id => element = Some id) st.2
    (foldl (fun st '(attr, attrValue) => applyAttr element attr attrValue st)
           st elAttributes).2.
Proof.
  revert st. induction elAttributes as [|[attr v] rest IH]; intros [l h]; simpl.
  - apply wrote_refl.
  - eapply wrote_trans; [apply (applyAttr_wrote element attr v l h)|].
    apply IH.
Qed.

Lemma applyElement_wrote (h : Host) (el : string)
    (elAttributes : list (string * string)) :
  wrote (fun id => getElementById el h = Some id) h
        (applyElement h (el, elAttributes)).
Proof.
  unfold applyElement.
  pose proof (attributes_wrote (getElementById el h) elAttributes
                (mkLocals TranslateData.empty "", h)) as W.
  destruct (foldl _ _ elAttributes) as [l h1]. simpl in W.
  destruct (truthy _); [|exact W].
  eapply wrote_trans; [exact W | apply applyAttribute_wrote].
Qed.

Lemma getElementById_Some (el id : string) (h : Host) :
  getElementById el h = Some id <-> id = el /\ is_Some (document h !! el).
Proof.
  unfold getElementById. destruct (document h !! el) as [e|].
  - split; [intros [= <-]; eauto | intros [-> _]; reflexivity].
  - split; [discriminate | intros [_ [e E]]; discriminate].
Qed.

(** Every write of [applyData] goes to an element of the document. *)
Lemma applyData_wrote (queryData : PatchSet) (h : Host) :
  wrote (fun id => is_Some (document h !! id)) h (applyData queryData h).
Proof.
  unfold applyData. revert h.
  induction queryData as [|[el attrs] rest IH]; intros h; cbn [foldl].
  - apply wrote_refl.
  - pose proof (applyElement_wrote h el attrs) as W.
    eapply wrote_trans.
    + eapply wrote_weaken; [|exact W].
      intros id [-> S]%getElementById_Some. exact S.
    + eapply wrote_weaken; [|apply IH].
      intros id S. cbv beta in S. destruct W as [_ D].
      destruct (document h !! id) eqn:E; [eauto|].
      apply D in E. rewrite E in S. destruct S as [? S]. discriminate S.
Qed.

(** The turn of the loop for an id that resolves to no element leaves the
    document and the journal as they were. *)
Lemma applyElement_missing (h : Host) (el : string)
    (elAttributes : list (string * string)) :
  document h !! el = None -> applyElement h (el, elAttributes) = h.
Proof.
  intros M. unfold applyElement.
  assert (G : getElementById el h = None)
    by (unfold getElementById; rewrite M; reflexivity).
  rewrite G.
  assert (F : forall st,
    (foldl (fun st '(attr, attrValue) => applyAttr None attr attrValue st)
           st elAttributes).2 = st.2).
  { induction elAttributes as [|[attr v] rest IH]; intros [l h0]; simpl;
      [reflexivity|].
    rewrite IH. unfold applyAttr.
    repeat (match goal with |- context [if ?b then _ else _] => destruct b end);
      reflexivity. }
  specialize (F (mkLocals TranslateData.empty "", h)).
  destruct (foldl _ _ elAttributes) as [l h1]. simpl in F. subst h1.
  destruct (truthy _); reflexivity.
Qed.

(** ** Lists in ascending order *)

Lemma ascending_cons (q : Query) (l : list Query) :
  ascending (q :: l) = true ->
  (forall q', q' ∈ l -> lt (threshold q') (threshold q) = false)
  /\ ascending l = true.
Proof.
  simpl. intros [F A]%andb_true_iff. split; [|exact A].
  intros q' I. rewrite forallb_forall in F.
  apply list_elem_of_In, F, negb_true_iff in I. exact I.
Qed.

(** No threshold is above that of the last entry. *)
Lemma ascending_last (l : list Query) (lastQuery : Query) :
  ascending l = true -> last l = Some lastQuery ->
  forall q, q ∈ l -> lt (threshold lastQuery) (threshold q) = false.
Proof.
  induction l as [|q0 l IH]; intros A L q I; [inversion I|].
  apply ascending_cons in A as [F A].
  destruct l as [|q1 l].
  - injection L as <-. apply list_elem_of_singleton in I as ->.
    apply lt_irrefl.
  - rewrite last_cons_cons in L.
    apply elem_of_cons in I as [->|I].
    + apply F. apply last_Some_elem_of, L.
    + apply IH; assumption.
Qed.

(** A width below a threshold is not above a threshold that comes later. *)
Lemma below_earlier_threshold (w a b : number) :
  lt w a = true -> lt b a = false -> gt w b = false.
Proof.
  intros L N. unfold gt. destruct (lt b w) eqn:E; [|reflexivity].
  rewrite (lt_trans b w a E L) in N. discriminate N.
Qed.

(** ** The loop, entry by entry *)

Lemma forEach_no_match (this : NuSvg) (dq : option Query) (h : Host) :
  (forall i q, queries this !! i = Some q -> visit this dq q i h = Normal h) ->
  forall suf pre, queries this = pre ++ suf ->
    forEach (visit this dq) suf (length pre) h = Normal h.
Proof.
  intros V. induction suf as [|q suf IH]; intros pre E; simpl; [reflexivity|].
  rewrite V by (rewrite E; apply list_lookup_middle; reflexivity).
  replace (S (length pre)) with (length (pre ++ [q]))
    by (rewrite length_app; simpl; lia).
  apply IH. rewrite <- app_assoc. exact E.
Qed.

(** The bounds of a non-default entry that has the entry [p] in front of
    it. *)
Lemma queryDataOf_at (this : NuSvg) (pre suf : list Query) (p q : Query) :
  queries this = pre ++ q :: suf -> last pre = Some p -> isDefault q = false ->
  queryDataOf this q (length pre)
  = Some (mkQueryData
            (Some (if isDefault p then ofZ 0 else threshold p))
            (threshold q)).
Proof.
  intros E L D. unfold queryDataOf. rewrite D. simpl.
  assert (N : length pre <> 0%nat)
    by (destruct pre; [discriminate L | simpl; lia]).
  apply Nat.eqb_neq in N. rewrite N.
  rewrite last_lookup in L.
  rewrite E, lookup_app_l by (apply Nat.eqb_neq in N; lia).
  replace (length pre - 1)%nat with (Nat.pred (length pre)) by lia.
  rewrite L. destruct (isDefault p); reflexivity.
Qed.

(** ** Above the last threshold *)

(** When the list is in ascending threshold order and has a default
    entry, a width strictly greater than the threshold parsed from the last
    entry makes [process] apply the data of the default entry and nothing
    else, to the host as it is. *)
Lemma process_above_last_threshold (this : NuSvg) (d lastQuery : Query)
    (t x : Q) (h : Host) :
  head (List.filter isDefault (queries this)) = Some d ->
  ascending (queries this) = true ->
  last (queries this) = Some lastQuery ->
  parseInt (substr1 (query lastQuery)) = Num t ->
  width (svgComposition this) = Num x ->
  (t < x)%Q ->
  process this h = Normal (applyData (data d) h).
Proof.
  intros Hd A L T W G. fold (threshold lastQuery) in T.
  unfold process. rewrite Hd.
  rewrite (forEach_no_match this (Some d) h) with (pre := []); [|  | reflexivity].
  - rewrite L. unfold applyContainerQuery, gt. cbn [max].
    rewrite W, T. simpl. apply Qltb_lt in G. rewrite G. reflexivity.
  - intros i q Hq. destruct (isDefault q) eqn:D; [apply visit_default, D|].
    destruct (queryDataOf_Some this i q Hq) as [d0 H0].
    apply (visit_out_of_range this (Some d) q i d0 h H0). unfold inRange.
    rewrite (queryDataOf_max this i q d0 D H0).
    assert (N : lt (threshold lastQuery) (threshold q) = false).
    { apply (ascending_last (queries this)); try assumption.
      apply list_elem_of_lookup. eauto. }
    rewrite W, T in *. destruct (threshold q) as [|b]; simpl in *.
    + apply andb_false_r.
    + apply Qltb_ge in N. apply andb_false_iff. right. apply Qltb_ge. lra.
Qed.

(** ** One outcome per cycle (C3) *)

(** C3, as stated, fails: the default entry may stand anywhere in the
    list, and an entry that comes right after it has 0 as lower bound.  In
    the list [>300; default; >500] the width 100 is in the range of both
    non-default entries, and one call of [process] applies the default,
    [>300], the default again and [>500]. *)
Lemma C3_counterexample :
  let d := mkQuery "default" [("a", [("fill", "red")])] in
  (exists h, process (nuSvg 100 defaultInside) page = Normal h
     /\ writes h = [StyleWrite "a" "fill" "red"; StyleWrite "a" "fill" "blue";
                    StyleWrite "a" "fill" "red"; StyleWrite "a" "fill" "green"])
  /\ ~ (process (nuSvg 100 defaultInside) page = Normal page
        \/ process (nuSvg 100 defaultInside) page
           = Normal (applyData (data d) page)
        \/ exists q, q ∈ defaultInside /\ isDefault q = false
             /\ process (nuSvg 100 defaultInside) page
                = Normal (applyData (data q) (applyData (data d) page))).
Proof.
  intros d.
  pose (ws := fun c => match c with Normal h | Throw _ h => writes h end).
  assert (W : ws (process (nuSvg 100 defaultInside) page)
              = [StyleWrite "a" "fill" "red"; StyleWrite "a" "fill" "blue";
                 StyleWrite "a" "fill" "red"; StyleWrite "a" "fill" "green"])
    by reflexivity.
  split.
  - destruct (process (nuSvg 100 defaultInside) page) as [h|e h] eqn:P.
    + exists h. split; [reflexivity | exact W].
    + vm_compute in P. discriminate P.
  - intros [E|[E|(q & I & D & E)]].
    + rewrite E in W. vm_compute in W. discriminate W.
    + rewrite E in W. vm_compute in W. discriminate W.
    + rewrite E in W. unfold defaultInside in I.
      repeat (apply elem_of_cons in I as [->|I]);
        try (vm_compute in W; discriminate W).
      inversion I.
Qed.

(** Once an entry has matched, no later entry of an ascending list
    matches: their lower bounds are not below the width. *)
Lemma forEach_after_match (this : NuSvg) (dq : option Query) :
  forall (suf pre : list Query) (p : Query) (h : Host),
    queries this = pre ++ suf ->
    last pre = Some p ->
    isDefault p = false ->
    gt (width (svgComposition this)) (threshold p) = false ->
    Forall (fun q => isDefault q = false
                     /\ gt (width (svgComposition this)) (threshold q) = false)
           suf ->
    forEach (visit this dq) suf (length pre) h = Normal h.
Proof.
  induction suf as [|q suf IH]; intros pre p h E L D G F; simpl;
    [reflexivity|].
  apply Forall_cons in F as [[Dq Gq] F].
  pose proof (queryDataOf_at this pre suf p q E L Dq) as Hd. rewrite D in Hd.
  rewrite (visit_out_of_range this dq q (length pre) _ h Hd).
  - replace (S (length pre)) with (length (pre ++ [q]))
      by (rewrite length_app; simpl; lia).
    apply (IH (pre ++ [q]) q); try assumption.
    + rewrite <- app_assoc. exact E.
    + apply last_snoc.
  - unfold inRange. cbn [min max toNumber]. rewrite G. reflexivity.
Qed.

Section DefaultFirst.

Variables (this : NuSvg) (d : Query).

(** The loop over an ascending run of non-default entries: either one
    entry is in range and the loop applies the default and that entry, or
    no entry is in range and the loop applies nothing. *)
Lemma forEach_ascending :
  forall (suf pre : list Query) (p : Query) (h : Host),
    queries this = pre ++ suf ->
    last pre = Some p ->
    forallb (fun q => negb (isDefault q)) suf = true ->
    ascending suf = true ->
    (exists i q dq,
        queries this !! i = Some q /\ q ∈ suf
        /\ queryDataOf this q i = Some dq /\ inRange this dq = true
        /\ forEach (visit this (Some d)) suf (length pre) h
           = Normal (applyData (data q) (applyData (data d) h)))
    \/ ((forall i q dq, (length pre <= i)%nat ->
            queries this !! i = Some q -> queryDataOf this q i = Some dq ->
            inRange this dq = false)
        /\ forEach (visit this (Some d)) suf (length pre) h = Normal h).
Proof.
  induction suf as [|q suf IH]; intros pre p h E L N A.
  - right. split; [|reflexivity]. intros i q dq Hi Hq.
    rewrite E, app_nil_r in Hq. apply lookup_lt_Some in Hq. lia.
  - simpl in N. apply andb_true_iff in N as [Dq%negb_true_iff N].
    apply ascending_cons in A as [Fq A].
    pose proof (queryDataOf_at this pre suf p q E L Dq) as Hd.
    assert (Lq : queries this !! length pre = Some q)
      by (rewrite E; apply list_lookup_middle; reflexivity).
    assert (E' : queries this = (pre ++ [q]) ++ suf)
      by (rewrite <- app_assoc; exact E).
    assert (Len : S (length pre) = length (pre ++ [q]))
      by (rewrite length_app; simpl; lia).
    set (dq := mkQueryData _ _) in Hd.
    destruct (inRange this dq) eqn:R.
    + left. exists (length pre), q, dq.
      split; [exact Lq|]. split; [apply list_elem_of_here|].
      split; [exact Hd|]. split; [exact R|].
      simpl. unfold visit. rewrite Hd, applyContainerQuery_inRange, R.
      unfold applyQuery. rewrite Len.
      assert (B : lt (width (svgComposition this)) (threshold q) = true)
        by (unfold inRange in R; apply andb_true_iff in R as [_ R]; exact R).
      apply (forEach_after_match this (Some d) suf (pre ++ [q]) q);
        try assumption.
      * apply last_snoc.
      * unfold gt. apply lt_asym, B.
      * apply Forall_forall. intros q' I. split.
        -- rewrite forallb_forall in N.
           apply list_elem_of_In, N, negb_true_iff in I. exact I.
        -- apply (below_earlier_threshold _ (threshold q)); [exact B|].
           apply Fq, I.
    + destruct (IH (pre ++ [q]) q h E' (last_snoc _ _) N A)
        as [(i & q' & dq' & Hq' & I & Hd' & R' & F)|[O F]].
      * left. exists i, q', dq'.
        split; [exact Hq'|]. split; [apply list_elem_of_further, I|].
        split; [exact Hd'|]. split; [exact R'|].
        simpl. rewrite (visit_out_of_range this (Some d) q _ dq h Hd R).
        rewrite Len. exact F.
      * right. split.
        -- intros i q' dq' Hi Hq' Hd'.
           destruct (decide (i = length pre)) as [->|Ne].
           ++ rewrite Lq in Hq'. injection Hq' as <-.
              rewrite Hd in Hd'. injection Hd' as <-. exact R.
           ++ apply (O i q' dq'); try assumption. rewrite <- Len. lia.
        -- simpl. rewrite (visit_out_of_range this (Some d) q _ dq h Hd R).
           rewrite Len. exact F.
Qed.

End DefaultFirst.

(** C3, amended: when the default entry is the first entry of the list and
    the other entries are non-default and in ascending threshold order,
    one call of [process] has exactly one of three outcomes, for every
    width.  Either one non-default entry is in range, and the data of the
    default followed by the data of that one entry are applied; or no
    entry is in range and the width is above the last threshold, and the
    data of the default alone are applied; or no entry is in range and the
    width is not above the last threshold, and nothing is applied. *)
Theorem C3_one_outcome_per_cycle (this : NuSvg) (d : Query)
    (rest : list Query) (h : Host) :
  queries this = d :: rest ->
  isDefault d = true ->
  forallb (fun q => negb (isDefault q)) rest = true ->
  ascending rest = true ->
  exists lastQuery,
    last (queries this) = Some lastQuery
    /\ ((exists i q dq,
            queries this !! i = Some q /\ q ∈ rest
            /\ queryDataOf this q i = Some dq /\ inRange this dq = true
            /\ process this h
               = Normal (applyData (data q) (applyData (data d) h)))
        \/ ((forall i q dq,
                queries this !! i = Some q -> queryDataOf this q i = Some dq ->
                inRange this dq = false)
            /\ ((gt (width (svgComposition this)) (threshold lastQuery) = true
                 /\ process this h = Normal (applyData (data d) h))
                \/ (gt (width (svgComposition this)) (threshold lastQuery)
                    = false
                    /\ process this h = Normal h)))).
Proof.
  intros E D N A.
  assert (NE : queries this <> []) by (rewrite E; discriminate).
  apply last_is_Some in NE as [lastQuery L]. exists lastQuery.
  split; [exact L|].
  assert (V0 : forall h0, visit this (Some d) d 0 h0 = Normal h0)
    by (intros h0; apply visit_default, D).
  assert (P : process this h =
    match forEach (visit this (Some d)) rest 1 h with
    | Normal h1 =>
        applyContainerQuery this (mkQueryData None (threshold lastQuery))
          lastQuery (Some d) true h1
    | Throw e h1 => Throw e h1
    end).
  { unfold process. rewrite L, E. simpl. rewrite D. simpl.
    rewrite V0. reflexivity. }
  destruct (forEach_ascending this d rest [d] d h E eq_refl N A)
    as [(i & q & dq & Hq & I & Hd & R & F)|[O F]].
  - left. exists i, q, dq. repeat (split; [assumption|]).
    rewrite P. simpl in F. rewrite F.
    unfold applyContainerQuery. cbn [max].
    assert (B : lt (width (svgComposition this)) (threshold q) = true).
    { unfold inRange in R. apply andb_true_iff in R as [_ R].
      rewrite (queryDataOf_max this i q dq) in R; [exact R| |exact Hd].
      rewrite forallb_forall in N.
      apply list_elem_of_In, N, negb_true_iff in I. exact I. }
    rewrite (below_earlier_threshold _ (threshold q)); [reflexivity|exact B|].
    assert (Lr : last rest = Some lastQuery).
    { rewrite E in L. destruct rest; [inversion I|]. exact L. }
    apply (ascending_last rest); assumption.
  - right. split.
    + intros i q dq Hq Hd. destruct i as [|i].
      * rewrite E in Hq. injection Hq as <-.
        unfold queryDataOf in Hd. rewrite D in Hd. injection Hd as <-.
        unfold inRange, gt. cbn [min max toNumber].
        destruct (lt (ofZ 0) (width (svgComposition this))) eqn:Z;
          [|reflexivity].
        apply lt_asym in Z. rewrite Z. reflexivity.
      * apply (O (S i) q dq); [simpl; lia | exact Hq | exact Hd].
    + rewrite P. simpl in F. rewrite F. unfold applyContainerQuery.
      cbn [max]. destruct (gt _ _); [left | right]; split; reflexivity.
Qed.

Lemma C3_one_outcome_per_cycle_witness :
  let d := mkQuery "default" [("a", [("fill", "red")])] in
  let rest := [mkQuery ">400" [("a", [("fill", "blue")])]] in
  queries (nuSvg 300 redBlue) = d :: rest
  /\ isDefault d = true
  /\ forallb (fun q => negb (isDefault q)) rest = true
  /\ ascending rest = true
  /\ exists lastQuery, last (queries (nuSvg 300 redBlue)) = Some lastQuery.
Proof.
  intros d rest. do 4 (split; [reflexivity|]).
  destruct (C3_one_outcome_per_cycle (nuSvg 300 redBlue) d rest page)
    as (lastQuery & L & _); try reflexivity.
  exists lastQuery. exact L.
Defined.

(** ** Strings *)

Lemma append_cons (c : ascii) (s t : string) :
  String c s +:+ t = String c (s +:+ t).
Proof. reflexivity. Qed.

Lemma append_nil_r (s : string) : s +:+ "" = s.
Proof. induction s as [|c s IH]; [reflexivity|]. rewrite append_cons, IH. reflexivity. Qed.

Lemma append_assoc (s t u : string) : (s +:+ t) +:+ u = s +:+ t +:+ u.
Proof.
  induction s as [|c s IH]; [reflexivity|].
  rewrite !append_cons, IH. reflexivity.
Qed.

Lemma lineFree_app (s t : string) :
  lineFree (s +:+ t) = lineFree s && lineFree t.
Proof.
  induction s as [|c s IH]; [reflexivity|].
  rewrite append_cons. simpl. rewrite IH, andb_assoc. reflexivity.
Qed.

Lemma dollarFree_app (s t : string) :
  dollarFree (s +:+ t) = dollarFree s && dollarFree t.
Proof.
  induction s as [|c s IH]; [reflexivity|].
  rewrite append_cons. simpl. rewrite IH, andb_assoc. reflexivity.
Qed.

Lemma stripLiteral_self (p s : string) : stripLiteral p (p +:+ s) = Some s.
Proof.
  induction p as [|a p IH]; [reflexivity|].
  rewrite append_cons. simpl. rewrite Ascii.eqb_refl. exact IH.
Qed.

(** When [u] is at least as long as the literal, what follows [u] plays no
    part. *)
Lemma stripLiteral_app (p u s : string) :
  (String.length p <= String.length u)%nat ->
  stripLiteral p (u +:+ s) = (fun r => r +:+ s) <$> stripLiteral p u.
Proof.
  revert u. induction p as [|a p IH]; intros u L; [reflexivity|].
  destruct u as [|b u]; [simpl in L; lia|].
  rewrite append_cons. simpl. destruct (Ascii.eqb a b); [|reflexivity].
  apply IH. simpl in L. lia.
Qed.

(** A literal [p1 p2] does not start in a text [u] in which [p1] does not
    start, when what follows [u] is a code unit that [p1] does not have. *)
Lemma stripLiteral_blocked (p1 p2 u s : string) (c : ascii) :
  without c p1 = true -> startsWith p1 u = false ->
  stripLiteral (p1 +:+ p2) (u +:+ String c s) = None.
Proof.
  revert u. induction p1 as [|a p1 IH]; intros u W N; [discriminate N|].
  simpl in W. apply andb_true_iff in W as [Wa W].
  apply negb_true_iff in Wa.
  rewrite append_cons. destruct u as [|b u].
  - simpl. rewrite Wa. reflexivity.
  - rewrite append_cons. simpl. simpl in N.
    destruct (Ascii.eqb a b); [|reflexivity]. apply IH; assumption.
Qed.

Lemma startsWith_app (p s : string) : startsWith p (p +:+ s) = true.
Proof.
  induction p as [|a p IH]; [reflexivity|].
  rewrite append_cons. simpl. rewrite Ascii.eqb_refl. exact IH.
Qed.

Lemma startsWith_prefix (p q s : string) :
  startsWith (p +:+ q) s = true -> startsWith p s = true.
Proof.
  revert s. induction p as [|a p IH]; intros s H; [reflexivity|].
  rewrite append_cons in H. destruct s as [|b s]; [discriminate H|].
  simpl in *. apply andb_true_iff in H as [-> H]. apply IH, H.
Qed.

Lemma includes_cons (p : string) (c : ascii) (s : string) :
  includes p (String c s) = startsWith p (String c s) || includes p s.
Proof. reflexivity. Qed.

Lemma includes_startsWith (p s : string) :
  startsWith p s = true -> includes p s = true.
Proof. intros H. destruct s; simpl; rewrite H; reflexivity. Qed.

Lemma includes_app (p b s : string) :
  includes p s = true -> includes p (b +:+ s) = true.
Proof.
  intros H. induction b as [|c b IH]; [exact H|].
  rewrite append_cons, includes_cons, IH. apply orb_true_r.
Qed.

(** ** The greedy group *)

Lemma greedy_Some (s cap aft : string) :
  greedy s = Some (cap, aft) ->
  s = cap +:+ ")" +:+ aft /\ lineFree cap = true /\ greedy aft = None.
Proof.
  revert cap. induction s as [|c s IH]; intros cap H; [discriminate H|].
  simpl in H. destruct (isLineTerminator c) eqn:T; [discriminate H|].
  destruct (greedy s) as [[cap' aft']|] eqn:G.
  - injection H as <- <-. destruct (IH cap' eq_refl) as (-> & L & N).
    repeat split; try assumption. simpl. rewrite T, L. reflexivity.
  - destruct (Ascii.eqb_spec c ")") as [->|]; [|discriminate H].
    injection H as <- <-. repeat split. exact G.
Qed.

Lemma greedy_build (body aft : string) :
  lineFree body = true -> greedy aft = None ->
  greedy (body +:+ ")" +:+ aft) = Some (body, aft).
Proof.
  intros L N. induction body as [|c body IH].
  - change ("" +:+ ")" +:+ aft) with (String ")" aft). simpl. rewrite N.
    reflexivity.
  - simpl in L. apply andb_true_iff in L as [T%negb_true_iff L].
    rewrite append_cons. simpl. rewrite T, (IH L). reflexivity.
Qed.

(** In front of a text where the group matches, a text without line
    terminator lets the group match too. *)
Lemma greedy_extend (u s cap aft : string) :
  lineFree u = true -> greedy s = Some (cap, aft) ->
  greedy (u +:+ s) = Some (u +:+ cap, aft).
Proof.
  intros L G. induction u as [|c u IH]; [exact G|].
  simpl in L. apply andb_true_iff in L as [T%negb_true_iff L].
  rewrite !append_cons. simpl. rewrite T, (IH L). reflexivity.
Qed.

(** After a line terminator nothing plays a part. *)
Lemma greedy_line (u s : string) :
  lineFree u = false ->
  greedy (u +:+ s) = (fun '(cap, aft) => (cap, aft +:+ s)) <$> greedy u.
Proof.
  induction u as [|c u IH]; intros L; [discriminate L|].
  rewrite append_cons. simpl. simpl in L.
  destruct (isLineTerminator c); [reflexivity|]. simpl in L.
  rewrite (IH L). destruct (greedy u) as [[cap aft]|]; simpl; [reflexivity|].
  destruct (Ascii.eqb c ")"); reflexivity.
Qed.

(** A failure of the pattern in front of a text where the group matches
    does not depend on that text. *)
Lemma greedy_None_app (u s s' : string) :
  greedy (u +:+ s) = None -> greedy s <> None -> greedy (u +:+ s') = None.
Proof.
  intros N G. destruct (lineFree u) eqn:L.
  - destruct (greedy s) as [[cap aft]|] eqn:E; [|contradiction].
    rewrite (greedy_extend u s cap aft L E) in N. discriminate N.
  - rewrite greedy_line in * by exact L.
    destruct (greedy u) as [[cap aft]|]; [discriminate N | reflexivity].
Qed.

(** ** The leftmost match *)

Lemma length_append (s t : string) :
  String.length (s +:+ t) = (String.length s + String.length t)%nat.
Proof.
  induction s as [|c s IH]; [reflexivity|].
  rewrite append_cons. simpl. rewrite IH. reflexivity.
Qed.

Lemma stripLiteral_Some (p s r : string) :
  stripLiteral p s = Some r -> s = p +:+ r.
Proof.
  revert s. induction p as [|a p IH]; intros s H.
  - injection H as ->. reflexivity.
  - destruct s as [|b s]; [discriminate H|]. simpl in H.
    destruct (Ascii.eqb_spec a b) as [->|]; [|discriminate H].
    rewrite append_cons, (IH s H). reflexivity.
Qed.

Lemma exec_eq (s : string) :
  exec s =
  match matchHere s with
  | Some (cap, aft) => Some (mkMatch "" cap aft)
  | None =>
      match s with
      | EmptyString => None
      | String c r =>
          match exec r with
          | Some m => Some (mkMatch (String c (before m)) (capture m) (after m))
          | None => None
          end
      end
  end.
Proof. destruct s; reflexivity. Qed.

(** A failure of the pattern at a position in front of a match does not
    depend on what the group of that match holds. *)
Lemma matchHere_None_app (u s s' : string) :
  matchHere (u +:+ token +:+ s) = None -> greedy s <> None ->
  matchHere (u +:+ token +:+ s') = None.
Proof.
  unfold matchHere. rewrite <- !(append_assoc u token).
  rewrite !(stripLiteral_app token (u +:+ token))
    by (rewrite length_append; lia).
  destruct (stripLiteral token (u +:+ token)) as [r|]; simpl; [|reflexivity].
  apply greedy_None_app.
Qed.

Lemma exec_Some (s : string) (m : RegExpMatch) :
  exec s = Some m ->
  s = before m +:+ token +:+ capture m +:+ ")" +:+ after m
  /\ lineFree (capture m) = true
  /\ greedy (after m) = None.
Proof.
  revert m. induction s as [|c s IH]; intros m H; rewrite exec_eq in H.
  - discriminate H.
  - destruct (matchHere (String c s)) as [[cap aft]|] eqn:M.
    + injection H as <-. simpl. unfold matchHere in M.
      destruct (stripLiteral token (String c s)) as [r|] eqn:S;
        [|discriminate M].
      apply stripLiteral_Some in S. apply greedy_Some in M as (-> & L & N).
      rewrite S. repeat split; assumption.
    + destruct (exec s) as [m'|]; [|discriminate H].
      injection H as <-. simpl. destruct (IH m' eq_refl) as (E & L & N).
      rewrite append_cons, <- E. repeat split; assumption.
Qed.

(** The pattern at the head of the text. *)
Lemma exec_token (body aft : string) :
  lineFree body = true -> greedy aft = None ->
  exec (token +:+ body +:+ ")" +:+ aft) = Some (mkMatch "" body aft).
Proof.
  intros L N. rewrite exec_eq. unfold matchHere.
  rewrite stripLiteral_self, (greedy_build body aft L N). reflexivity.
Qed.

(** With another text without line terminator in the place of the group,
    the leftmost match is at the same position. *)
Lemma exec_other_body (s : string) (m : RegExpMatch) (body : string) :
  exec s = Some m -> lineFree body = true ->
  exec (before m +:+ token +:+ body +:+ ")" +:+ after m)
  = Some (mkMatch (before m) body (after m)).
Proof.
  revert m. induction s as [|c s IH]; intros m H L.
  - rewrite exec_eq in H. discriminate H.
  - pose proof (exec_Some _ _ H) as (_ & _ & N).
    rewrite exec_eq in H.
    destruct (matchHere (String c s)) as [[cap aft]|] eqn:M.
    + injection H as <-. simpl in *. apply exec_token; assumption.
    + destruct (exec s) as [m'|] eqn:X; [|discriminate H].
      injection H as <-. cbn [before capture after] in *.
      destruct (exec_Some _ _ X) as (E & L' & N').
      assert (M' : matchHere (String c (before m' +:+ token +:+ body
                                        +:+ ")" +:+ after m')) = None).
      { rewrite <- append_cons.
        apply (matchHere_None_app _ (capture m' +:+ ")" +:+ after m')).
        - rewrite append_cons, <- E. exact M.
        - rewrite (greedy_build _ _ L' N'). discriminate. }
      rewrite append_cons, exec_eq, M'. cbv beta iota.
      rewrite (IH m' eq_refl L). reflexivity.
Qed.

(** In a text without [translate] that a space and the token follow, the
    leftmost match is that token. *)
Lemma exec_appended (e body : string) :
  includes "translate" e = false -> lineFree body = true ->
  exec (e +:+ " " +:+ token +:+ body +:+ ")")
  = Some (mkMatch (e +:+ " ") body "").
Proof.
  intros I L. induction e as [|c e IH].
  - change ("" +:+ " " +:+ token +:+ body +:+ ")")
      with (String " " (token +:+ body +:+ ")" +:+ "")).
    rewrite exec_eq. change (matchHere (String " " _)) with (@None (string * string)).
    rewrite (exec_token body "" L eq_refl). reflexivity.
  - rewrite includes_cons in I. apply orb_false_iff in I as [S I].
    rewrite exec_eq. unfold matchHere.
    change (" " +:+ token +:+ body +:+ ")")
      with (String " " (token +:+ body +:+ ")")).
    change token with ("translate" +:+ "(") at 1.
    rewrite (stripLiteral_blocked "translate" "(" (String c e) _ " " eq_refl S).
    rewrite append_cons.
    change (String " " (token +:+ body +:+ ")"))
      with (" " +:+ token +:+ body +:+ ")").
    rewrite (IH I). reflexivity.
Qed.

Lemma getSubstitution_plain (m : RegExpMatch) (t : string) :
  dollarFree t = true -> getSubstitution m t = t.
Proof.
  induction t as [|c t IH]; intros D; [reflexivity|].
  simpl in D. apply andb_true_iff in D as [C D]. simpl.
  rewrite C, (IH D). reflexivity.
Qed.

(** ** The transform composer is idempotent (C9) *)

Lemma replace_Some (e t : string) (m : RegExpMatch) :
  exec e = Some m -> dollarFree t = true ->
  replace e t = before m +:+ t +:+ after m.
Proof.
  intros X D. unfold replace. rewrite X, getSubstitution_plain by exact D.
  reflexivity.
Qed.

Lemma replace_again (e body : string) :
  lineFree body = true -> dollarFree (token +:+ body +:+ ")") = true ->
  replace (replace e (token +:+ body +:+ ")")) (token +:+ body +:+ ")")
  = replace e (token +:+ body +:+ ")").
Proof.
  intros L D. destruct (exec e) as [m|] eqn:X.
  - rewrite (replace_Some e _ m X D).
    pose proof (exec_other_body e m body X L) as X'.
    assert (A : before m +:+ (token +:+ body +:+ ")") +:+ after m
                = before m +:+ token +:+ body +:+ ")" +:+ after m)
      by (rewrite !append_assoc; reflexivity).
    rewrite A, (replace_Some _ (token +:+ body +:+ ")") _ X' D).
    cbn [before after]. exact A.
  - assert (R : replace e (token +:+ body +:+ ")") = e)
      by (unfold replace; rewrite X; reflexivity).
    rewrite !R. reflexivity.
Qed.

Lemma truthy_app (b s : string) : truthy s = true -> truthy (b +:+ s) = true.
Proof. destruct b; [trivial | reflexivity]. Qed.

Lemma truthy_app_l (s t : string) : truthy s = true -> truthy (s +:+ t) = true.
Proof. destruct s; [discriminate | reflexivity]. Qed.

Lemma composeTransform_again (e body : string) :
  lineFree body = true -> dollarFree (token +:+ body +:+ ")") = true ->
  let t := Some (token +:+ body +:+ ")") in
  composeTransform (composeTransform e t) t = composeTransform e t.
Proof.
  intros L D t. set (tv := token +:+ body +:+ ")") in *.
  assert (Tt : truthy tv = true) by reflexivity.
  assert (It : includes "translate" tv = true) by reflexivity.
  assert (Rt : replace tv tv = tv).
  { unfold replace, tv.
    change (token +:+ body +:+ ")") with (token +:+ body +:+ ")" +:+ "") at 1.
    rewrite (exec_token body "" L eq_refl), getSubstitution_plain by exact D.
    simpl. apply append_nil_r. }
  assert (C1 : forall s, truthy s = true -> includes "translate" s = true ->
                 composeTransform s t = replace s tv).
  { intros s Ts Is. unfold composeTransform, t. rewrite Ts, Tt, Is.
    reflexivity. }
  assert (C2 : forall s, truthy s = true -> includes "translate" s = false ->
                 composeTransform s t = s +:+ " " +:+ tv).
  { intros s Ts Is. unfold composeTransform, t. rewrite Ts, Tt, Is.
    reflexivity. }
  destruct (truthy e) eqn:Te.
  - destruct (includes "translate" e) eqn:Ie.
    + rewrite (C1 e Te Ie).
      assert (P : truthy (replace e tv) = true
                  /\ includes "translate" (replace e tv) = true).
      { destruct (exec e) as [m|] eqn:X.
        - rewrite (replace_Some e tv m X D). split.
          + apply truthy_app, truthy_app_l, Tt.
          + apply includes_app, includes_startsWith. reflexivity.
        - unfold replace. rewrite X. split; assumption. }
      destruct P as [P1 P2]. rewrite (C1 _ P1 P2).
      apply replace_again; assumption.
    + rewrite (C2 e Te Ie), C1.
      * unfold replace, tv.
        rewrite (exec_appended e body Ie L), getSubstitution_plain
          by exact D.
        cbn [before after]. rewrite append_nil_r, append_assoc. reflexivity.
      * apply truthy_app_l, Te.
      * apply includes_app. apply (includes_app "translate" " " tv It).
  - destruct e; [|discriminate Te].
    change (composeTransform "" t) with tv. rewrite (C1 tv Tt It). exact Rt.
Qed.

Lemma coordinate_plain (c : option string) :
  plainCoordinate c = true ->
  dollarFree (coordinate c) = true /\ lineFree (coordinate c) = true.
Proof.
  destruct c as [v|]; simpl; [|split; reflexivity].
  intros [D L]%andb_true_iff. destruct (truthy v); split; trivial.
Qed.

Lemma translateValueOf_shape (d : TranslateData.t) (tv : string) :
  plainCoordinate (TranslateData.x d) = true ->
  plainCoordinate (TranslateData.y d) = true ->
  translateValueOf d = Some tv ->
  exists body, tv = token +:+ body +:+ ")"
               /\ lineFree body = true /\ dollarFree tv = true.
Proof.
  intros [Dx Lx]%coordinate_plain [Dy Ly]%coordinate_plain H.
  unfold translateValueOf in H.
  destruct (TranslateData.hasKeys d); [|discriminate H]. injection H as <-.
  exists (coordinate (TranslateData.x d) +:+ ","
          +:+ coordinate (TranslateData.y d)).
  split; [|split].
  - change "translate(" with token.
    rewrite (append_assoc (coordinate (TranslateData.x d))),
            (append_assoc ","). reflexivity.
  - rewrite lineFree_app, (lineFree_app ","), Lx, Ly. reflexivity.
  - change "translate(" with token.
    rewrite (dollarFree_app token), (dollarFree_app (coordinate _)),
            (dollarFree_app ","), (dollarFree_app (coordinate _)), Dx, Dy.
    reflexivity.
Qed.

(** C9, as stated, fails: the translate value is the replacement string
    of [replace], in which a dollar sign followed by an ampersand stands
    for the matched text.  With the coordinate x equal to these two code
    units, a second composition wraps the result of the first. *)
Lemma C9_counterexample :
  let t := translateValueOf (TranslateData.mk (Some "$&") None) in
  t = Some "translate($&,0)"
  /\ composeTransform "translate(1)" t = "translate(translate(1),0)"
  /\ composeTransform (composeTransform "translate(1)" t) t
     = "translate(translate(translate(1),0),0)"
  /\ composeTransform (composeTransform "translate(1)" t) t
     <> composeTransform "translate(1)" t.
Proof.
  intros t. do 3 (split; [reflexivity|]). vm_compute. discriminate.
Qed.

(** C9, amended: transform composition is idempotent for every existing
    expression [e] when the coordinates x and y hold no dollar sign and no
    line terminator, as every rendering of a number does: composing the
    result again with the same translate value gives the result.  One
    composition keeps the text in front of the match and the text behind
    the match where they are, and only appends to an expression that has
    no translate. *)
Theorem C9_composition_idempotent (e : string) (d : TranslateData.t) :
  plainCoordinate (TranslateData.x d) = true ->
  plainCoordinate (TranslateData.y d) = true ->
  composeTransform (composeTransform e (translateValueOf d))
                   (translateValueOf d)
  = composeTransform e (translateValueOf d)
  /\ (forall m tv, translateValueOf d = Some tv -> exec e = Some m ->
        composeTransform e (Some tv) = before m +:+ tv +:+ after m)
  /\ (forall tv, translateValueOf d = Some tv -> truthy e = true ->
        includes "translate" e = false ->
        composeTransform e (Some tv) = e +:+ " " +:+ tv).
Proof.
  intros Px Py. split; [|split].
  - destruct (translateValueOf d) as [tv|] eqn:T.
    + destruct (translateValueOf_shape d tv Px Py T) as (body & -> & L & D).
      apply composeTransform_again; assumption.
    + unfold composeTransform. destruct (truthy e) eqn:Te.
      * rewrite Te. reflexivity.
      * reflexivity.
  - intros m tv T X.
    destruct (translateValueOf_shape d tv Px Py T) as (body & E & L & D).
    destruct (exec_Some e m X) as (Ee & _ & _).
    assert (Te : truthy e = true)
      by (rewrite Ee; apply truthy_app; reflexivity).
    assert (Ie : includes "translate" e = true)
      by (rewrite Ee; apply includes_app, includes_startsWith; reflexivity).
    unfold composeTransform. rewrite Te, Ie.
    replace (truthy tv) with true by (rewrite E; reflexivity).
    apply replace_Some; assumption.
  - intros tv T Te Ie.
    destruct (translateValueOf_shape d tv Px Py T) as (body & E & L & D).
    unfold composeTransform. rewrite Te, Ie.
    replace (truthy tv) with true by (rewrite E; reflexivity).
    reflexivity.
Qed.

Lemma C9_composition_idempotent_witness :
  let d := TranslateData.mk (Some "10") (Some "5") in
  plainCoordinate (TranslateData.x d) = true
  /\ plainCoordinate (TranslateData.y d) = true
  /\ composeTransform
       (composeTransform "rotate(45) translate(1,1)" (translateValueOf d))
       (translateValueOf d)
     = composeTransform "rotate(45) translate(1,1)" (translateValueOf d).
Proof.
  intros d. do 2 (split; [reflexivity|]).
  exact (proj1 (C9_composition_idempotent "rotate(45) translate(1,1)" d
                  eq_refl eq_refl)).
Defined.

(** * Further properties of the code *)

(** ** What the attribute applier writes *)

Lemma present_Some (h : Host) (el : string) :
  present h el = true <-> is_Some (document h !! el).
Proof.
  unfold present. destruct (document h !! el); split; eauto; try discriminate.
  intros [? ?]. discriminate.
Qed.

Lemma foldl_perform_None (ws : list Write) (d : gmap string Element)
    (k : string) :
  foldl perform d ws !! k = None <-> d !! k = None.
Proof.
  revert d. induction ws as [|w ws IH]; intros d; simpl; [reflexivity|].
  rewrite IH. destruct w; simpl; apply lookup_alter_None.
Qed.

(** The inner loop of [applyData] on an element of the document: the
    locals hold the last [x], [y] and [transform] seen, and the host has
    taken the style writes. *)
Lemma attributes_loop (el : string) (attrs : list (string * string))
    (l : Locals) (h : Host) :
  foldl (fun st '(attr, attrValue) => applyAttr (Some el) attr attrValue st)
        (l, h) attrs
  = (mkLocals
       (TranslateData.mk
          (match lastValue "x" attrs with
           | Some v => Some v
           | None => TranslateData.x (translateData l)
           end)
          (match lastValue "y" attrs with
           | Some v => Some v
           | None => TranslateData.y (translateData l)
           end))
       (match lastValue "transform" attrs with
        | Some v => v
        | None => transformValue l
        end),
     mkHost (foldl perform (document h) (styleWrites el attrs))
            (writes h ++ styleWrites el attrs)).
Proof.
  revert l h. induction attrs as [|[a v] r IH]; intros l h.
  - simpl. rewrite app_nil_r. destruct l as [[x y] t], h. reflexivity.
  - cbn [foldl]. unfold applyAttr at 2. cbn [lastValue styleWrites].
    destruct (String.eqb_spec a "x") as [->|Nx].
    { rewrite IH. cbn. destruct (lastValue "x" r), (lastValue "y" r),
        (lastValue "transform" r); reflexivity. }
    destruct (String.eqb_spec a "y") as [->|Ny].
    { rewrite IH. cbn. destruct (lastValue "x" r), (lastValue "y" r),
        (lastValue "transform" r); reflexivity. }
    destruct (String.eqb_spec a "display") as [->|Nd].
    { rewrite IH. cbn. rewrite <- app_assoc.
      destruct (lastValue "x" r), (lastValue "y" r),
        (lastValue "transform" r); reflexivity. }
    destruct (String.eqb_spec a "fill") as [->|Nf].
    { rewrite IH. cbn. rewrite <- app_assoc.
      destruct (lastValue "x" r), (lastValue "y" r),
        (lastValue "transform" r); reflexivity. }
    destruct (String.eqb_spec a "transform") as [->|Nt].
    { rewrite IH. cbn. destruct (lastValue "x" r), (lastValue "y" r),
        (lastValue "transform" r); reflexivity. }
    rewrite IH. cbn.
    destruct (lastValue "x" r), (lastValue "y" r), (lastValue "transform" r);
      reflexivity.
Qed.

Lemma applyElement_present (h : Host) (el : string)
    (attrs : list (string * string)) :
  present h el = true ->
  applyElement h (el, attrs)
  = mkHost (foldl perform (document h) (elementJournal el attrs))
           (writes h ++ elementJournal el attrs).
Proof.
  intros P. unfold applyElement, getElementById. unfold present in P.
  destruct (document h !! el) as [e|]; [|discriminate P].
  rewrite attributes_loop. cbn [translateData transformValue].
  unfold elementJournal.
  replace (composeTransform _ _) with (transformOf attrs).
  - destruct (truthy (transformOf attrs)).
    + unfold applyAttribute. cbn [document writes].
      rewrite foldl_app, <- app_assoc. reflexivity.
    + rewrite !app_nil_r. reflexivity.
  - unfold transformOf.
    destruct (lastValue "x" attrs), (lastValue "y" attrs),
      (lastValue "transform" attrs); reflexivity.
Qed.

Lemma journal_ext (p1 p2 : string -> bool) (queryData : PatchSet) :
  (forall el, p1 el = p2 el) -> journal p1 queryData = journal p2 queryData.
Proof.
  intros E. induction queryData as [|[el attrs] r IH]; [reflexivity|].
  simpl. rewrite E, IH. reflexivity.
Qed.

Lemma present_perform (h : Host) (ws ws' : list Write) (el : string) :
  present (mkHost (foldl perform (document h) ws) ws') el = present h el.
Proof.
  unfold present. cbn [document].
  destruct (document h !! el) eqn:E.
  - destruct (foldl perform (document h) ws !! el) eqn:F; [reflexivity|].
    apply foldl_perform_None in F. congruence.
  - apply (foldl_perform_None ws) in E. rewrite E. reflexivity.
Qed.

(** The loops of [applyData] as one journal of writes. *)
Lemma applyData_effect (queryData : PatchSet) (h : Host) :
  applyData queryData h
  = mkHost (foldl perform (document h) (journal (present h) queryData))
           (writes h ++ journal (present h) queryData).
Proof.
  unfold applyData. revert h.
  induction queryData as [|[el attrs] r IH]; intros h.
  - simpl. rewrite app_nil_r. destruct h; reflexivity.
  - cbn [foldl journal]. rewrite IH. destruct (present h el) eqn:P.
    + rewrite (applyElement_present h el attrs P). cbn [document writes].
      rewrite (journal_ext _ (present h)) by (intros k; apply present_perform).
      rewrite foldl_app, <- app_assoc. reflexivity.
    + rewrite applyElement_missing
        by (unfold present in P; destruct (document h !! el);
            [discriminate P | reflexivity]).
      reflexivity.
Qed.

(** ** The document after a journal of writes *)

Lemma styleOf_perform (d : gmap string Element) (w : Write)
    (el name : string) :
  is_Some (d !! el) ->
  styleOf el name (perform d w)
  = match w with
    | StyleWrite e n v =>
        if String.eqb e el && String.eqb n name then Some v
        else styleOf el name d
    | AttributeWrite _ _ _ => styleOf el name d
    end.
Proof.
  intros [x X]. unfold styleOf. destruct w as [e n v|e n v]; simpl.
  - destruct (String.eqb_spec e el) as [->|Ne]; simpl.
    + rewrite lookup_alter_eq, X. simpl.
      destruct (String.eqb_spec n name) as [->|Nn].
      * apply lookup_insert_eq.
      * apply lookup_insert_ne, Nn.
    + rewrite lookup_alter_ne by exact Ne. reflexivity.
  - destruct (decide (e = el)) as [->|Ne].
    + rewrite lookup_alter_eq, X. reflexivity.
    + rewrite lookup_alter_ne by exact Ne. reflexivity.
Qed.

Lemma attributeOf_perform (d : gmap string Element) (w : Write)
    (el name : string) :
  is_Some (d !! el) ->
  attributeOf el name (perform d w)
  = match w with
    | AttributeWrite e n v =>
        if String.eqb e el && String.eqb n name then Some v
        else attributeOf el name d
    | StyleWrite _ _ _ => attributeOf el name d
    end.
Proof.
  intros [x X]. unfold attributeOf. destruct w as [e n v|e n v]; simpl.
  - destruct (decide (e = el)) as [->|Ne].
    + rewrite lookup_alter_eq, X. reflexivity.
    + rewrite lookup_alter_ne by exact Ne. reflexivity.
  - destruct (String.eqb_spec e el) as [->|Ne]; simpl.
    + rewrite lookup_alter_eq, X. simpl.
      destruct (String.eqb_spec n name) as [->|Nn].
      * apply lookup_insert_eq.
      * apply lookup_insert_ne, Nn.
    + rewrite lookup_alter_ne by exact Ne. reflexivity.
Qed.

Lemma perform_is_Some (d : gmap string Element) (w : Write) (k : string) :
  is_Some (perform d w !! k) <-> is_Some (d !! k).
Proof.
  rewrite <- !not_eq_None_Some.
  destruct w; simpl; rewrite lookup_alter_None; reflexivity.
Qed.

(** A style property holds the last value written to it, and its old
    value when the journal has no write for it. *)
Lemma styleOf_journal (ws : list Write) (d : gmap string Element)
    (el name : string) :
  is_Some (d !! el) ->
  styleOf el name (foldl perform d ws)
  = match lastStyle el name ws with
    | Some v => Some v
    | None => styleOf el name d
    end.
Proof.
  revert d. induction ws as [|w ws IH]; intros d P; [reflexivity|].
  cbn [foldl lastStyle]. rewrite IH by (apply perform_is_Some, P).
  destruct (lastStyle el name ws); [reflexivity|].
  rewrite styleOf_perform by exact P.
  destruct w as [e n v|e n v]; [|reflexivity].
  destruct (String.eqb e el && String.eqb n name); reflexivity.
Qed.

Lemma attributeOf_journal (ws : list Write) (d : gmap string Element)
    (el name : string) :
  is_Some (d !! el) ->
  attributeOf el name (foldl perform d ws)
  = match lastAttribute el name ws with
    | Some v => Some v
    | None => attributeOf el name d
    end.
Proof.
  revert d. induction ws as [|w ws IH]; intros d P; [reflexivity|].
  cbn [foldl lastAttribute]. rewrite IH by (apply perform_is_Some, P).
  destruct (lastAttribute el name ws); [reflexivity|].
  rewrite attributeOf_perform by exact P.
  destruct w as [e n v|e n v]; [reflexivity|].
  destruct (String.eqb e el && String.eqb n name); reflexivity.
Qed.

Lemma lastStyle_app (el name : string) (a b : list Write) :
  lastStyle el name (a ++ b)
  = match lastStyle el name b with
    | Some v => Some v
    | None => lastStyle el name a
    end.
Proof.
  induction a as [|w a IH]; simpl.
  - destruct (lastStyle el name b); reflexivity.
  - rewrite IH. destruct (lastStyle el name b); reflexivity.
Qed.

Lemma lastAttribute_app (el name : string) (a b : list Write) :
  lastAttribute el name (a ++ b)
  = match lastAttribute el name b with
    | Some v => Some v
    | None => lastAttribute el name a
    end.
Proof.
  induction a as [|w a IH]; simpl.
  - destruct (lastAttribute el name b); reflexivity.
  - rewrite IH. destruct (lastAttribute el name b); reflexivity.
Qed.

(** Two documents with the same elements, style properties and attributes
    are the same document. *)
Lemma document_ext (d1 d2 : gmap string Element) :
  (forall el, is_Some (d1 !! el) <-> is_Some (d2 !! el)) ->
  (forall el name, styleOf el name d1 = styleOf el name d2) ->
  (forall el name, attributeOf el name d1 = attributeOf el name d2) ->
  d1 = d2.
Proof.
  intros D S A. apply map_eq. intros el.
  specialize (D el). specialize (S el). specialize (A el).
  unfold styleOf, attributeOf in *.
  destruct (d1 !! el) as [[s1 a1]|], (d2 !! el) as [[s2 a2]|]; simpl in *.
  - f_equal. f_equal; apply map_eq; assumption.
  - destruct D as [D _]. destruct D; [eauto | discriminate].
  - destruct D as [_ D]. destruct D; [eauto | discriminate].
  - reflexivity.
Qed.

Lemma foldl_perform_is_Some (ws : list Write) (d : gmap string Element)
    (k : string) :
  is_Some (foldl perform d ws !! k) <-> is_Some (d !! k).
Proof.
  rewrite <- !not_eq_None_Some, foldl_perform_None. reflexivity.
Qed.

(** Writing a journal a second time changes nothing. *)
Lemma journal_twice (ws : list Write) (d : gmap string Element) :
  foldl perform d (ws ++ ws) = foldl perform d ws.
Proof.
  apply document_ext.
  - intros el. rewrite !foldl_perform_is_Some. reflexivity.
  - intros el name. destruct (d !! el) as [e|] eqn:E.
    + rewrite !styleOf_journal, lastStyle_app by eauto.
      destruct (lastStyle el name ws); reflexivity.
    + unfold styleOf.
      rewrite (proj2 (foldl_perform_None (ws ++ ws) d el) E).
      rewrite (proj2 (foldl_perform_None ws d el) E). reflexivity.
  - intros el name. destruct (d !! el) as [e|] eqn:E.
    + rewrite !attributeOf_journal, lastAttribute_app by eauto.
      destruct (lastAttribute el name ws); reflexivity.
    + unfold attributeOf.
      rewrite (proj2 (foldl_perform_None (ws ++ ws) d el) E).
      rewrite (proj2 (foldl_perform_None ws d el) E). reflexivity.
Qed.

(** ** A resolution cycle as a list of patch sets *)

Lemma journal_shape (p : string -> bool) (queryData : PatchSet) :
  Forall (fun w => p (writeElement w) = true /\ applierWrite w = true)
         (journal p queryData).
Proof.
  induction queryData as [|[el attrs] r IH]; simpl; [constructor|].
  apply Forall_app. split; [|exact IH].
  destruct (p el) eqn:P; [|constructor].
  unfold elementJournal. apply Forall_app. split.
  - induction attrs as [|[a v] attrs IHa]; simpl; [constructor|].
    destruct (String.eqb a "display" || String.eqb a "fill") eqn:B;
      [|exact IHa].
    constructor; [|exact IHa]. split; [exact P | exact B].
  - destruct (truthy (transformOf attrs)); repeat constructor. exact P.
Qed.

(** The loops of [applyData] write the journal of the patch set: for each
    id that resolves to an element, in the order of the patch set, the
    style writes of its [display] and [fill] in the order of the patch,
    then one write of the attribute [transform] unless the composed
    transform is empty.  An id that resolves to nothing gets no write, and
    the document changes by these writes and no others. *)
Theorem applyData_journal (queryData : PatchSet) (h : Host) :
  applyData queryData h
  = mkHost (foldl perform (document h) (journal (present h) queryData))
           (writes h ++ journal (present h) queryData)
  /\ Forall (fun w => is_Some (document h !! writeElement w)
                      /\ applierWrite w = true)
            (journal (present h) queryData).
Proof.
  split; [apply applyData_effect|].
  eapply Forall_impl; [apply journal_shape|].
  intros w [P A]. split; [|exact A]. apply present_Some, P.
Qed.

Lemma journals_ext (p1 p2 : string -> bool) (ds : list PatchSet) :
  (forall el, p1 el = p2 el) ->
  flat_map (journal p1) ds = flat_map (journal p2) ds.
Proof.
  intros E. induction ds as [|d ds IH]; [reflexivity|]. simpl.
  rewrite IH, (journal_ext p1 p2 d E). reflexivity.
Qed.

(** The journal of several patch sets applied in a row. *)
Lemma applyAll_journal (ds : list PatchSet) (h : Host) :
  applyAll ds h
  = mkHost (foldl perform (document h) (flat_map (journal (present h)) ds))
           (writes h ++ flat_map (journal (present h)) ds).
Proof.
  unfold applyAll. revert h. induction ds as [|d ds IH]; intros h.
  - simpl. rewrite app_nil_r. destruct h; reflexivity.
  - cbn [foldl flat_map]. rewrite IH, applyData_effect.
    cbn [document writes].
    rewrite (journals_ext _ (present h))
      by (intros k; apply present_perform).
    rewrite foldl_app, <- app_assoc. reflexivity.
Qed.

(** What a cycle does to the host is fixed by the list and the width: it
    applies a list of patch sets, and completes normally or throws, the
    same for every host. *)
Lemma forEach_plan (this : NuSvg) (dq : option Query) :
  forall (suf : list Query) (i : nat),
  exists (ds : list PatchSet) (ok : bool),
  forall h,
    forEach (visit this dq) suf i h
    = (if ok then Normal else Throw TypeError) (applyAll ds h).
Proof.
  induction suf as [|q suf IH]; intros i.
  - exists [], true. reflexivity.
  - destruct (IH (S i)) as (ds & ok & F).
    assert (V : forall h, forEach (visit this dq) (q :: suf) i h
                = match visit this dq q i h with
                  | Normal h' => forEach (visit this dq) suf (S i) h'
                  | Throw e h' => Throw e h'
                  end) by reflexivity.
    destruct (queryDataOf this q i) as [d|] eqn:Q.
    + destruct (inRange this d) eqn:R.
      * destruct dq as [dflt|].
        -- exists (data dflt :: data q :: ds), ok. intros h.
           rewrite V. unfold visit.
           rewrite Q, applyContainerQuery_inRange, R. unfold applyQuery.
           rewrite F. reflexivity.
        -- exists [], false. intros h. rewrite V. unfold visit.
           rewrite Q, applyContainerQuery_inRange, R. reflexivity.
      * exists ds, ok. intros h. rewrite V. unfold visit.
        rewrite Q, applyContainerQuery_inRange, R. apply F.
    + exists [], false. intros h. rewrite V. unfold visit. rewrite Q.
      reflexivity.
Qed.

Lemma process_plan (this : NuSvg) :
  exists (ds : list PatchSet) (ok : bool),
  forall h,
    process this h = (if ok then Normal else Throw TypeError) (applyAll ds h).
Proof.
  destruct (forEach_plan this (head (List.filter isDefault (queries this)))
              (queries this) 0) as (ds & ok & F).
  destruct ok.
  - destruct (last (queries this)) as [lastQuery|] eqn:L.
    + destruct (gt (width (svgComposition this)) (threshold lastQuery)) eqn:G.
      * destruct (head (List.filter isDefault (queries this))) as [dflt|] eqn:D.
        -- exists (ds ++ [data dflt]), true. intros h. unfold process.
           rewrite D, F, L. unfold applyContainerQuery. cbn [max].
           rewrite G. unfold applyAll. rewrite foldl_app. reflexivity.
        -- exists ds, false. intros h. unfold process.
           rewrite D, F, L. unfold applyContainerQuery. cbn [max].
           rewrite G. reflexivity.
      * exists ds, true. intros h. unfold process.
        rewrite F, L. unfold applyContainerQuery. cbn [max].
        rewrite G. reflexivity.
    + exists ds, false. intros h. unfold process. rewrite F, L. reflexivity.
  - exists ds, false. intros h. unfold process. rewrite F. reflexivity.
Qed.

(** ** A second cycle changes nothing *)

(** After one call of [process], a second call with the same list and the
    same width leaves the document as it is: every style property and
    every attribute of every element keeps the value of the first call. *)
Theorem process_twice (this : NuSvg) (h : Host) :
  document (hostOf (process this (hostOf (process this h))))
  = document (hostOf (process this h)).
Proof.
  destruct (process_plan this) as (ds & ok & P).
  assert (H : forall h0, hostOf (process this h0) = applyAll ds h0)
    by (intros h0; rewrite P; destruct ok; reflexivity).
  assert (E : flat_map (journal (present (applyAll ds h))) ds
              = flat_map (journal (present h)) ds).
  { apply journals_ext. intros k. rewrite applyAll_journal.
    apply present_perform. }
  rewrite !H, (applyAll_journal ds (applyAll ds h)), E.
  rewrite (applyAll_journal ds h). cbn [document].
  rewrite <- foldl_app. apply journal_twice.
Qed.

(** ** What a cycle writes, and where *)

(** A call of [process] only adds to the journal.  Every write it makes
    goes to an element that was in the document, and is a style write of
    [display] or [fill] or an attribute write of [transform]; the document
    afterwards is the old one with these writes, and has the same
    elements. *)
Theorem process_writes (this : NuSvg) (h : Host) :
  exists ws,
    writes (hostOf (process this h)) = writes h ++ ws
    /\ document (hostOf (process this h)) = foldl perform (document h) ws
    /\ Forall (fun w => is_Some (document h !! writeElement w)
                        /\ applierWrite w = true) ws
    /\ forall el, is_Some (document (hostOf (process this h)) !! el)
                  <-> is_Some (document h !! el).
Proof.
  destruct (process_plan this) as (ds & ok & P).
  assert (H : hostOf (process this h) = applyAll ds h)
    by (rewrite P; destruct ok; reflexivity).
  rewrite H, applyAll_journal. cbn [document writes].
  exists (flat_map (journal (present h)) ds).
  split; [reflexivity|]. split; [reflexivity|]. split.
  - apply Forall_flat_map, Forall_forall. intros d _.
    eapply Forall_impl; [apply journal_shape|].
    intros w [Pw Aw]. split; [apply present_Some, Pw | exact Aw].
  - intros el. apply foldl_perform_is_Some.
Qed.

(** ** Attributes without a case in the switch *)

Lemma styleWrites_recognized (el : string) (attrs : list (string * string)) :
  styleWrites el (List.filter (fun '(a, _) => recognized a) attrs)
  = styleWrites el attrs.
Proof.
  induction attrs as [|[a v] r IH]; [reflexivity|]. simpl.
  unfold recognized at 1.
  destruct (String.eqb a "display") eqn:D, (String.eqb a "fill") eqn:F;
    rewrite ?orb_true_r, ?orb_false_r; simpl; rewrite ?D, ?F; simpl;
    try (rewrite IH; reflexivity).
  destruct (String.eqb a "x" || String.eqb a "y" || String.eqb a "transform");
    simpl; rewrite ?D, ?F; simpl; exact IH.
Qed.

Lemma lastValue_recognized (name : string) (attrs : list (string * string)) :
  recognized name = true ->
  lastValue name (List.filter (fun '(a, _) => recognized a) attrs)
  = lastValue name attrs.
Proof.
  intros R. induction attrs as [|[a v] r IH]; [reflexivity|]. simpl.
  destruct (recognized a) eqn:Ra; simpl; rewrite IH; [reflexivity|].
  destruct (lastValue name r); [reflexivity|].
  destruct (String.eqb_spec a name) as [->|]; [congruence | reflexivity].
Qed.

(** An attribute other than [x], [y], [display], [fill] and [transform]
    has no effect: the patch set without these attributes is applied in
    the same way, write for write. *)
Theorem applyData_ignores_other_attributes (queryData : PatchSet) (h : Host) :
  applyData (onlyRecognized queryData) h = applyData queryData h.
Proof.
  rewrite !applyData_effect. f_equal; f_equal.
  all: induction queryData as [|[el attrs] r IH]; [reflexivity|];
    simpl; rewrite IH; f_equal;
    destruct (present h el); [|reflexivity];
    unfold elementJournal, transformOf;
    rewrite styleWrites_recognized, !lastValue_recognized by reflexivity;
    reflexivity.
Qed.

(** ** The last write wins *)

Lemma lastValue_None (name : string) (attrs : list (string * string)) :
  name ∉ attrs.*1 -> lastValue name attrs = None.
Proof.
  induction attrs as [|[a v] r IH]; [reflexivity|]. simpl.
  intros N. apply not_elem_of_cons in N as [Na Nr]. rewrite (IH Nr).
  destruct (String.eqb_spec a name); [congruence | reflexivity].
Qed.

Lemma lastValue_elem_of (name v : string) (attrs : list (string * string)) :
  NoDup attrs.*1 -> (name, v) ∈ attrs -> lastValue name attrs = Some v.
Proof.
  induction attrs as [|[a v0] r IH]; intros D I; [inversion I|].
  simpl in D. apply NoDup_cons in D as [Na D].
  apply elem_of_cons in I as [[= -> ->]|I]; simpl.
  - rewrite (lastValue_None a r Na), String.eqb_refl. reflexivity.
  - rewrite (IH D I). reflexivity.
Qed.

Lemma lastStyle_styleWrites (el name : string)
    (attrs : list (string * string)) :
  name = "fill" \/ name = "display" ->
  lastStyle el name (styleWrites el attrs) = lastValue name attrs.
Proof.
  intros N. induction attrs as [|[a v] r IH]; [reflexivity|]. simpl.
  destruct (String.eqb a "display" || String.eqb a "fill") eqn:B; simpl.
  - rewrite IH, String.eqb_refl. reflexivity.
  - rewrite IH. destruct (lastValue name r); [reflexivity|].
    destruct (String.eqb_spec a name) as [->|]; [|reflexivity].
    destruct N as [-> | ->]; discriminate B.
Qed.

Lemma lastStyle_elsewhere (el name : string) (ws : list Write) :
  Forall (fun w => writeElement w <> el) ws -> lastStyle el name ws = None.
Proof.
  induction 1 as [|w ws N F IH]; [reflexivity|]. simpl. rewrite IH.
  destruct w as [e n v|e n v]; [|reflexivity]. simpl in N.
  destruct (String.eqb_spec e el); [contradiction | reflexivity].
Qed.

Lemma elementJournal_targets (el : string) (attrs : list (string * string)) :
  Forall (fun w => writeElement w = el) (elementJournal el attrs).
Proof.
  unfold elementJournal. apply Forall_app. split.
  - induction attrs as [|[a v] attrs IHa]; simpl; [constructor|].
    destruct (String.eqb a "display" || String.eqb a "fill");
      [constructor; [reflexivity | exact IHa] | exact IHa].
  - destruct (truthy _); repeat constructor.
Qed.

Lemma journal_targets (p : string -> bool) (queryData : PatchSet) :
  Forall (fun w => writeElement w ∈ queryData.*1) (journal p queryData).
Proof.
  induction queryData as [|[el attrs] r IH]; simpl; [constructor|].
  apply Forall_app. split.
  - destruct (p el); [|constructor].
    eapply Forall_impl; [apply elementJournal_targets|].
    intros w ->. apply list_elem_of_here.
  - eapply Forall_impl; [exact IH|]. intros w I. apply list_elem_of_further, I.
Qed.

Lemma lastStyle_elementJournal (el name : string)
    (attrs : list (string * string)) :
  name = "fill" \/ name = "display" ->
  lastStyle el name (elementJournal el attrs) = lastValue name attrs.
Proof.
  intros N. unfold elementJournal. rewrite lastStyle_app.
  rewrite (lastStyle_styleWrites el name attrs N).
  destruct (truthy (transformOf attrs)); simpl;
    destruct (lastValue name attrs); reflexivity.
Qed.

Lemma lastStyle_journal (p : string -> bool) (queryData : PatchSet)
    (el name : string) (attrs : list (string * string)) :
  NoDup queryData.*1 -> (el, attrs) ∈ queryData -> p el = true ->
  name = "fill" \/ name = "display" ->
  lastStyle el name (journal p queryData) = lastValue name attrs.
Proof.
  intros D I P N. induction queryData as [|[k kattrs] r IH]; [inversion I|].
  simpl in D. apply NoDup_cons in D as [Nk D]. simpl. rewrite lastStyle_app.
  apply elem_of_cons in I as [[= <- <-]|I].
  - rewrite P, lastStyle_elementJournal by exact N.
    rewrite (lastStyle_elsewhere el name (journal p r)); [reflexivity|].
    eapply Forall_impl; [apply journal_targets|].
    intros w Iw E. apply Nk. rewrite <- E. exact Iw.
  - rewrite (IH D I). destruct (lastValue name attrs); [reflexivity|].
    apply lastStyle_elsewhere.
    assert (Ne : k <> el).
    { intros ->. apply Nk. apply list_elem_of_fmap. exists (el, attrs). eauto. }
    destruct (p k); [|constructor].
    eapply Forall_impl; [apply elementJournal_targets|].
    intros w Iw. congruence.
Qed.

(** When an entry matches, its data are applied after the data of the
    default entry, so its values win: a [fill] or a [display] that the
    matched entry gives to an element of the document is the value of
    that style property afterwards, whatever the default entry gives.
    The keys of a patch set and of a patch are distinct, as the property
    names of an object are. *)
Theorem matched_overrides_default (q dflt : Query) (h : Host)
    (el name v : string) (attrs : list (string * string)) :
  NoDup (data q).*1 ->
  (el, attrs) ∈ data q ->
  NoDup attrs.*1 ->
  (name, v) ∈ attrs ->
  name = "fill" \/ name = "display" ->
  is_Some (document h !! el) ->
  exists h', applyQuery q (Some dflt) h = Normal h'
             /\ styleOf el name (document h') = Some v.
Proof.
  intros Dq I Da Iv N P. eexists. split; [reflexivity|].
  change (applyData (data q) (applyData (data dflt) h))
    with (applyAll [data dflt; data q] h).
  rewrite applyAll_journal. cbn [document flat_map].
  rewrite styleOf_journal by exact P. rewrite app_nil_r, lastStyle_app.
  rewrite (lastStyle_journal (present h) (data q) el name attrs Dq I);
    [|apply present_Some, P | exact N].
  rewrite (lastValue_elem_of name v attrs Da Iv). reflexivity.
Qed.

Lemma matched_overrides_default_witness :
  let q := mkQuery ">400" [("a", [("fill", "blue")])] in
  let dflt := mkQuery "default" [("a", [("fill", "red")])] in
  NoDup (data q).*1
  /\ ("a", [("fill", "blue")]) ∈ data q
  /\ NoDup [("fill", "blue")].*1
  /\ ("fill", "blue") ∈ [("fill", "blue")]
  /\ is_Some (document page !! "a")
  /\ exists h', applyQuery q (Some dflt) page = Normal h'
                /\ styleOf "a" "fill" (document h') = Some "blue".
Proof.
  intros q dflt.
  assert (D1 : NoDup (data q).*1) by (repeat constructor; set_solver).
  assert (I1 : ("a", [("fill", "blue")]) ∈ data q) by apply list_elem_of_here.
  assert (D2 : NoDup [("fill", "blue")].*1) by (repeat constructor; set_solver).
  assert (I2 : ("fill", "blue") ∈ [("fill", "blue")]) by apply list_elem_of_here.
  assert (P : is_Some (document page !! "a")) by (eexists; reflexivity).
  do 5 (split; [assumption|]).
  exact (matched_overrides_default q dflt page "a" "fill" "blue"
           [("fill", "blue")] D1 I1 D2 I2 (or_introl eq_refl) P).
Defined.

(** ** Nothing is ever removed *)

Lemma lastStyle_applier (el name : string) (ws : list Write) :
  Forall (fun w => applierWrite w = true) ws ->
  name <> "display" -> name <> "fill" ->
  lastStyle el name ws = None.
Proof.
  intros F Nd Nf. induction F as [|w ws A F IH]; [reflexivity|].
  simpl. rewrite IH. destruct w as [e n v|e n v]; [|reflexivity].
  simpl in A. destruct (String.eqb_spec n name) as [->|];
    [|rewrite andb_false_r; reflexivity].
  apply orb_true_iff in A as [A%String.eqb_eq|A%String.eqb_eq]; contradiction.
Qed.

Lemma lastAttribute_applier (el name : string) (ws : list Write) :
  Forall (fun w => applierWrite w = true) ws ->
  name <> "transform" ->
  lastAttribute el name ws = None.
Proof.
  intros F Nt. induction F as [|w ws A F IH]; [reflexivity|].
  simpl. rewrite IH. destruct w as [e n v|e n v]; [reflexivity|].
  simpl in A. apply String.eqb_eq in A as ->.
  destruct (String.eqb_spec "transform" name) as [<-|];
    [contradiction | rewrite andb_false_r; reflexivity].
Qed.

(** A cycle never removes anything from an element of the document: a
    style property or an attribute that was set is still set afterwards.
    The style properties other than [display] and [fill] and the
    attributes other than [transform] keep their value. *)
Theorem process_never_clears (this : NuSvg) (h : Host) (el name : string) :
  is_Some (document h !! el) ->
  let d' := document (hostOf (process this h)) in
  (is_Some (styleOf el name (document h)) -> is_Some (styleOf el name d'))
  /\ (is_Some (attributeOf el name (document h)) ->
      is_Some (attributeOf el name d'))
  /\ (name <> "display" -> name <> "fill" ->
      styleOf el name d' = styleOf el name (document h))
  /\ (name <> "transform" ->
      attributeOf el name d' = attributeOf el name (document h)).
Proof.
  intros P d'. subst d'.
  destruct (process_plan this) as (ds & ok & E).
  assert (H : hostOf (process this h) = applyAll ds h)
    by (rewrite E; destruct ok; reflexivity).
  rewrite H, applyAll_journal. cbn [document].
  set (ws := flat_map (journal (present h)) ds).
  assert (A : Forall (fun w => applierWrite w = true) ws).
  { apply Forall_flat_map, Forall_forall. intros d _.
    eapply Forall_impl; [apply journal_shape|]. intros w [_ Aw]. exact Aw. }
  rewrite styleOf_journal, attributeOf_journal by exact P.
  repeat split.
  - intros S. destruct (lastStyle el name ws); [eauto | exact S].
  - intros S. destruct (lastAttribute el name ws); [eauto | exact S].
  - intros Nd Nf. rewrite (lastStyle_applier el name ws A Nd Nf). reflexivity.
  - intros Nt. rewrite (lastAttribute_applier el name ws A Nt). reflexivity.
Qed.

Lemma process_never_clears_witness :
  let h := mkHost {[ "a" := mkElement {[ "stroke" := "black" ]}
                                      {[ "transform" := "scale(2)" ]} ]} [] in
  is_Some (document h !! "a")
  /\ styleOf "a" "stroke" (document (hostOf (process (nuSvg 300 redBlue) h)))
     = styleOf "a" "stroke" (document h).
Proof.
  intros h.
  assert (P : is_Some (document h !! "a")) by (eexists; reflexivity).
  split; [exact P|].
  destruct (process_never_clears (nuSvg 300 redBlue) h "a" "stroke" P)
    as (_ & _ & S & _).
  apply S; discriminate.
Defined.

(** ** The loop without a default entry *)

Lemma forEach_no_default (this : NuSvg) :
  forall (suf pre : list Query) (h : Host),
    queries this = pre ++ suf ->
    ((exists i q d, queries this !! i = Some q
                    /\ queryDataOf this q i = Some d
                    /\ inRange this d = true)
     /\ forEach (visit this None) suf (length pre) h = Throw TypeError h)
    \/ ((forall i q d, (length pre <= i)%nat -> queries this !! i = Some q ->
           queryDataOf this q i = Some d -> inRange this d = false)
        /\ forEach (visit this None) suf (length pre) h = Normal h).
Proof.
  induction suf as [|q suf IH]; intros pre h E.
  - right. split; [|reflexivity]. intros i q d Hi Hq.
    rewrite E, app_nil_r in Hq. apply lookup_lt_Some in Hq. lia.
  - assert (Lq : queries this !! length pre = Some q)
      by (rewrite E; apply list_lookup_middle; reflexivity).
    destruct (queryDataOf_Some this (length pre) q Lq) as [d Hd].
    cbn [forEach]. unfold visit at 1 3. rewrite Hd, applyContainerQuery_inRange.
    destruct (inRange this d) eqn:R.
    + left. split; [exists (length pre), q, d; auto | reflexivity].
    + assert (E' : queries this = (pre ++ [q]) ++ suf)
        by (rewrite <- app_assoc; exact E).
      assert (Len : S (length pre) = length (pre ++ [q]))
        by (rewrite length_app; simpl; lia).
      rewrite Len.
      destruct (IH (pre ++ [q]) h E') as [[X F]|[O F]].
      * left. split; [exact X | exact F].
      * right. split; [|exact F]. intros i q' d' Hi Hq' Hd'.
        destruct (decide (i = length pre)) as [->|Ne].
        -- rewrite Lq in Hq'. injection Hq' as <-.
           rewrite Hd in Hd'. injection Hd' as <-. exact R.
        -- apply (O i q' d'); try assumption. rewrite <- Len. lia.
Qed.

Lemma head_filter_Some (l : list Query) (d : Query) :
  head (List.filter isDefault l) = Some d -> d ∈ l /\ query d = "default".
Proof.
  induction l as [|q l IH]; simpl; [discriminate|].
  destruct (isDefault q) eqn:D.
  - intros [= <-]. split; [apply list_elem_of_here | apply isDefault_key, D].
  - intros H. destruct (IH H) as [I K].
    split; [apply list_elem_of_further, I | exact K].
Qed.

(** ** A width equal to a threshold *)

Lemma lt_equal_r (n : number) (x t : Q) :
  (x == t)%Q -> lt n (Num t) = false -> lt n (Num x) = false.
Proof.
  intros E. destruct n as [|b]; [reflexivity|]. simpl.
  rewrite !Qltb_ge. lra.
Qed.

Lemma lt_equal_l (n : number) (x t : Q) :
  (x == t)%Q -> lt (Num t) n = false -> lt (Num x) n = false.
Proof.
  intros E. destruct n as [|b]; [reflexivity|]. simpl.
  rewrite !Qltb_ge. lra.
Qed.

Lemma forEach_at_threshold (this : NuSvg) (dq : option Query) (q : Query)
    (x t : Q) :
  width (svgComposition this) = Num x ->
  threshold q = Num t ->
  (x == t)%Q ->
  forall (suf pre : list Query) (p : Query) (h : Host),
    queries this = pre ++ suf ->
    last pre = Some p ->
    forallb (fun q => negb (isDefault q)) suf = true ->
    ascending suf = true ->
    q ∈ suf ->
    forEach (visit this dq) suf (length pre) h = Normal h.
Proof.
  intros W T E. induction suf as [|q0 suf IH]; intros pre p h Eq L N A I;
    [inversion I|].
  simpl in N. apply andb_true_iff in N as [D0%negb_true_iff N].
  apply ascending_cons in A as [F0 A].
  pose proof (queryDataOf_at this pre suf p q0 Eq L D0) as Hd.
  assert (Len : S (length pre) = length (pre ++ [q0]))
    by (rewrite length_app; simpl; lia).
  assert (E' : queries this = (pre ++ [q0]) ++ suf)
    by (rewrite <- app_assoc; exact Eq).
  assert (U : lt (width (svgComposition this)) (threshold q0) = false).
  { rewrite W. apply elem_of_cons in I as [<-|I].
    - rewrite T. apply (lt_equal x t E).
    - apply (lt_equal_l _ x t E). rewrite <- T. apply F0, I. }
  cbn [forEach].
  rewrite (visit_out_of_range this dq q0 (length pre) _ h Hd)
    by (unfold inRange; cbn [max]; rewrite U; apply andb_false_r).
  rewrite Len. apply elem_of_cons in I as [<-|I].
  - apply (forEach_after_match this dq suf (pre ++ [q]) q); try assumption.
    + apply last_snoc.
    + unfold gt. rewrite W, T. apply (lt_equal x t E).
    + apply Forall_forall. intros q' I'. split.
      * rewrite forallb_forall in N.
        apply list_elem_of_In, N, negb_true_iff in I'. exact I'.
      * unfold gt. rewrite W. apply (lt_equal_r _ x t E).
        rewrite <- T. apply F0, I'.
  - apply (IH (pre ++ [q0]) q0); try assumption. apply last_snoc.
Qed.

(** When the default entry is the first entry and the other entries are
    non-default and in ascending threshold order, a width equal to the
    threshold of an entry applies nothing at all, for the last threshold
    as for the others: the document stays as the earlier cycles left
    it. *)
Theorem nothing_at_a_threshold (this : NuSvg) (d q : Query)
    (rest : list Query) (x t : Q) (h : Host) :
  queries this = d :: rest ->
  isDefault d = true ->
  forallb (fun q => negb (isDefault q)) rest = true ->
  ascending rest = true ->
  q ∈ rest ->
  parseInt (substr1 (query q)) = Num t ->
  width (svgComposition this) = Num x ->
  (x == t)%Q ->
  process this h = Normal h.
Proof.
  intros Eq D N A I T W E. fold (threshold q) in T.
  unfold process. rewrite Eq. cbn [forEach].
  rewrite visit_default by exact D.
  rewrite (forEach_at_threshold this _ q x t W T E rest [d] d h);
    try assumption; try reflexivity.
  assert (L : exists lastQuery, last (d :: rest) = Some lastQuery
                                /\ lastQuery ∈ rest
                                /\ last rest = Some lastQuery).
  { destruct rest as [|q1 rest]; [inversion I|].
    rewrite last_cons_cons.
    destruct (last (q1 :: rest)) as [lq|] eqn:Lr.
    - exists lq. split; [reflexivity|].
      split; [apply last_Some_elem_of, Lr | reflexivity].
    - apply last_None in Lr. discriminate Lr. }
  destruct L as (lastQuery & -> & Il & Lr).
  unfold applyContainerQuery, gt. cbn [max]. rewrite W.
  rewrite (lt_equal_r _ x t E); [reflexivity|].
  rewrite <- T. apply (ascending_last rest lastQuery A Lr q I).
Qed.

Lemma nothing_at_a_threshold_witness :
  let d := mkQuery "default" [("a", [("fill", "red")])] in
  let q := mkQuery ">400" [("a", [("fill", "blue")])] in
  queries (nuSvg 400 redBlue) = d :: [q]
  /\ isDefault d = true
  /\ ascending [q] = true
  /\ parseInt (substr1 (query q)) = Num (inject_Z 400)
  /\ process (nuSvg 400 redBlue) page = Normal page.
Proof.
  intros d q. do 4 (split; [reflexivity|]).
  apply (nothing_at_a_threshold (nuSvg 400 redBlue) d q [q]
           (inject_Z 400) (inject_Z 400) page);
    try reflexivity. apply list_elem_of_here.
Defined.

(** ** The default entry at the end of the list *)

(** When the last entry of the list is the default entry, the check of
    the upper boundary compares the width with [NaN] and applies nothing:
    a width that is below no threshold applies nothing at all, not even
    the data of the default entry. *)
Theorem default_last_applies_nothing (this : NuSvg) (lastQuery : Query)
    (h : Host) :
  last (queries this) = Some lastQuery ->
  isDefault lastQuery = true ->
  forallb (fun q => negb (lt (width (svgComposition this)) (threshold q)))
          (queries this) = true ->
  process this h = Normal h.
Proof.
  intros L D B. unfold process.
  rewrite (forEach_no_match this _ h) with (pre := []); [| |reflexivity].
  - rewrite L. unfold applyContainerQuery, gt. cbn [max].
    rewrite (isDefault_threshold lastQuery D). reflexivity.
  - intros i q Hq. destruct (queryDataOf_Some this i q Hq) as [d0 H0].
    apply (visit_out_of_range this _ q i d0 h H0).
    destruct (isDefault q) eqn:Dq.
    + unfold queryDataOf in H0. rewrite Dq in H0. injection H0 as <-.
      unfold inRange, gt. cbn [min max toNumber].
      destruct (lt (ofZ 0) (width (svgComposition this))) eqn:Z;
        [|reflexivity].
      apply lt_asym in Z. rewrite Z. reflexivity.
    + unfold inRange. rewrite (queryDataOf_max this i q d0 Dq H0).
      rewrite forallb_forall in B.
      assert (I : In q (queries this))
        by (apply list_elem_of_In, list_elem_of_lookup; eauto).
      apply B, negb_true_iff in I. rewrite I. apply andb_false_r.
Qed.

Lemma default_last_applies_nothing_witness :
  let l := [mkQuery ">400" [("a", [("fill", "blue")])];
            mkQuery "default" [("a", [("fill", "red")])]] in
  last (queries (nuSvg 500 l)) = Some (mkQuery "default" [("a", [("fill", "red")])])
  /\ process (nuSvg 500 l) page = Normal page.
Proof.
  intros l. split; [reflexivity|].
  apply (default_last_applies_nothing (nuSvg 500 l)
           (mkQuery "default" [("a", [("fill", "red")])]) page);
    reflexivity.
Defined.

(** ** The word translate without the token *)

Lemma exec_includes (e : string) (m : RegExpMatch) :
  exec e = Some m -> includes token e = true.
Proof.
  intros X. destruct (exec_Some e m X) as (-> & _ & _).
  apply includes_app, includes_startsWith, startsWith_app.
Qed.

(** An existing expression that has the word [translate] but nowhere the
    token [translate(], such as [translateX(5)], is returned as it is:
    the first test of line 168 finds the word, the pattern has no match,
    and the offset asked for is lost. *)
Theorem offset_lost_without_token (e : string) (t : option string) :
  includes "translate" e = true ->
  includes token e = false ->
  composeTransform e t = e.
Proof.
  intros I N.
  assert (Te : truthy e = true) by (destruct e; [discriminate I | reflexivity]).
  assert (X : exec e = None).
  { destruct (exec e) as [m|] eqn:X; [|reflexivity].
    rewrite (exec_includes e m X) in N. discriminate N. }
  unfold composeTransform, replace. rewrite Te, I, X.
  destruct t as [tv|]; [destruct (truthy tv)|]; reflexivity.
Qed.

Lemma offset_lost_without_token_witness :
  includes "translate" "translateX(5) scale(2)" = true
  /\ includes token "translateX(5) scale(2)" = false
  /\ composeTransform "translateX(5) scale(2)"
       (translateValueOf (TranslateData.mk (Some "10") (Some "5")))
     = "translateX(5) scale(2)".
Proof.
  do 2 (split; [reflexivity|]).
  exact (offset_lost_without_token "translateX(5) scale(2)" _ eq_refl eq_refl).
Defined.

(** ** What the replacement keeps and what it takes *)

Lemma exec_after_space (e body aft : string) :
  includes "translate" e = false -> lineFree body = true ->
  greedy aft = None ->
  exec (e +:+ " " +:+ token +:+ body +:+ ")" +:+ aft)
  = Some (mkMatch (e +:+ " ") body aft).
Proof.
  intros I L N. induction e as [|c e IH].
  - change ("" +:+ " " +:+ token +:+ body +:+ ")" +:+ aft)
      with (String " " (token +:+ body +:+ ")" +:+ aft)).
    rewrite exec_eq.
    change (matchHere (String " " _)) with (@None (string * string)).
    rewrite (exec_token body aft L N). reflexivity.
  - rewrite includes_cons in I. apply orb_false_iff in I as [S I].
    rewrite exec_eq. unfold matchHere.
    change (" " +:+ token +:+ body +:+ ")" +:+ aft)
      with (String " " (token +:+ body +:+ ")" +:+ aft)).
    change token with ("translate" +:+ "(") at 1.
    rewrite (stripLiteral_blocked "translate" "(" (String c e) _ " " eq_refl S).
    rewrite append_cons.
    change (String " " (token +:+ body +:+ ")" +:+ aft))
      with (" " +:+ token +:+ body +:+ ")" +:+ aft).
    rewrite (IH I). reflexivity.
Qed.

(** The replacement of line 168 takes the text from the token
    [translate(] to the last closing parenthesis of the line: [body] is
    any text without line terminator, closing parentheses included, and
    [aft] has no closing parenthesis on the rest of the line.  What is in
    front of the token is kept, what follows the translate function on
    the same line is lost with it, and [aft] is kept.  The translate
    value has no dollar sign. *)
Theorem replacement_runs_to_last_parenthesis (front body aft tv : string) :
  includes "translate" front = false ->
  lineFree body = true ->
  greedy aft = None ->
  dollarFree tv = true ->
  truthy tv = true ->
  composeTransform (front +:+ " " +:+ token +:+ body +:+ ")" +:+ aft)
                   (Some tv)
  = front +:+ " " +:+ tv +:+ aft
  /\ composeTransform (token +:+ body +:+ ")" +:+ aft) (Some tv)
     = tv +:+ aft.
Proof.
  intros I L N D T. split.
  - unfold composeTransform. rewrite T.
    replace (truthy (front +:+ " " +:+ token +:+ body +:+ ")" +:+ aft))
      with true by (destruct front; reflexivity).
    rewrite (includes_app "translate" front)
      by (apply (includes_app "translate" " "), includes_startsWith;
          reflexivity).
    rewrite (replace_Some _ tv _ (exec_after_space front body aft I L N) D).
    cbn [before after]. rewrite append_assoc. reflexivity.
  - unfold composeTransform. rewrite T.
    change (truthy (token +:+ body +:+ ")" +:+ aft)) with true.
    change (includes "translate" (token +:+ body +:+ ")" +:+ aft)) with true.
    rewrite (replace_Some _ tv _ (exec_token body aft L N) D). reflexivity.
Qed.

Lemma replacement_runs_to_last_parenthesis_witness :
  includes "translate" "rotate(45)" = false
  /\ lineFree "1,1) scale(2" = true
  /\ greedy "" = None
  /\ dollarFree "translate(10,5)" = true
  /\ composeTransform "rotate(45) translate(1,1) scale(2)"
       (Some "translate(10,5)")
     = "rotate(45) translate(10,5)".
Proof.
  do 4 (split; [reflexivity|]).
  exact (proj1 (replacement_runs_to_last_parenthesis "rotate(45)"
                  "1,1) scale(2" "" "translate(10,5)"
                  eq_refl eq_refl eq_refl eq_refl eq_refl)).
Defined.

(** ** What follows the digits of a key *)

Lemma decimal_digit (c : ascii) (d : Z) :
  digitValue 10 c = Some d ->
  isWhiteSpace c = false
  /\ Ascii.eqb c "-" = false /\ Ascii.eqb c "+" = false
  /\ Ascii.eqb c "x" = false /\ Ascii.eqb c "X" = false.
Proof.
  destruct c as [[] [] [] [] [] [] [] []]; vm_compute; intros H;
    try discriminate H; repeat split.
Qed.

Lemma digits_suffix (s t : string) (acc : option Z) :
  decimal s = true ->
  match t with
  | EmptyString => True
  | String c _ => digitValue 10 c = None
  end ->
  digits 10 (s +:+ t) acc = digits 10 s acc.
Proof.
  revert acc. induction s as [|c s IH]; intros acc D T.
  - change ("" +:+ t) with t. destruct t as [|c r]; [reflexivity|].
    simpl. rewrite T. reflexivity.
  - rewrite append_cons. simpl in *.
    destruct (digitValue 10 c); [|discriminate D]. apply IH; assumption.
Qed.

Lemma digits_decimal (s : string) (acc : Z) :
  0 <= acc -> decimal s = true ->
  exists n, digits 10 s (Some acc) = Some n /\ 0 <= n.
Proof.
  revert acc. induction s as [|c s IH]; intros acc A D; simpl.
  - eauto.
  - simpl in D. destruct (digitValue 10 c) as [d|] eqn:V; [|discriminate D].
    apply IH; [|exact D]. simpl.
    assert (0 <= d).
    { unfold digitValue in V.
      destruct ((48 <=? _) && _) eqn:B1.
      - destruct (_ <? 10); [|discriminate V]. injection V as <-.
        apply andb_true_iff in B1 as [B1 _]. lia.
      - destruct ((97 <=? _) && _) eqn:B2.
        + destruct (_ <? 10); [|discriminate V]. injection V as <-.
          apply andb_true_iff in B2 as [B2 _]. lia.
        + destruct ((65 <=? _) && _) eqn:B3; [|discriminate V].
          destruct (_ <? 10); [|discriminate V]. injection V as <-.
          apply andb_true_iff in B3 as [B3 _]. lia. }
    lia.
Qed.

(** ** The rate limiter *)

Section ThrottleProperties.

Import Throttle.

Context {A R : Type}.
Variable func : option A -> R.
Variable wait : Z.
Variable options : Options.

Lemma spaced_snoc (l : list (Z * option A)) (t : Z) (a : option A) :
  spaced wait l = true ->
  (forall L b, last l = Some (L, b) -> L + wait <= t) ->
  spaced wait (l ++ [(t, a)]) = true.
Proof.
  induction l as [|[t0 a0] l IH]; intros S H; [reflexivity|].
  destruct l as [|[t1 a1] l].
  - simpl. rewrite andb_true_r. apply Z.leb_le. apply (H t0 a0). reflexivity.
  - change (spaced wait ((t0, a0) :: ((t1, a1) :: l) ++ [(t, a)]) = true).
    change (spaced wait ((t0, a0) :: (t1, a1) :: l) = true) in S.
    cbn [spaced app] in *. apply andb_true_iff in S as [S0 S].
    rewrite S0. simpl. apply IH; [exact S|].
    intros L b E. apply (H L b). rewrite last_cons_cons. exact E.
Qed.

Lemma settled_step (T : Z) (s : State A R) (e : Event A) :
  settled wait options T s ->
  schedule func wait options T s [e] = true ->
  settled wait options (time e) (step func wait options s e).
Proof.
  intros (T0 & P & S & I) V. simpl in V. rewrite andb_true_r in V.
  apply andb_true_iff in V as [C%Z.leb_le V].
  destruct e as [now a|now]; cbn [time step] in *.
  - unfold throttled.
    set (previous1 := if (previous s =? 0) && negb (leading options)
                      then now else previous s).
    assert (P1 : previous1 <= now).
    { unfold previous1. destruct (_ && _); lia. }
    assert (I1 : forall L b, last (calls s) = Some (L, b) -> L <= previous1).
    { intros L b E. destruct (I L b E) as (LT & [Lp|[Z0 Ld]] & _).
      - unfold previous1. destruct (_ && _); lia.
      - unfold previous1. rewrite Z0, Ld. simpl. lia. }
    destruct ((wait - (now - previous1) <=? 0)
              || (wait <? wait - (now - previous1))) eqn:B.
    + cbn [fst]. apply orb_true_iff in B as [B%Z.leb_le|B%Z.ltb_lt]; [|lia].
      split; [lia|]. split; [cbn; lia|]. split.
      * cbn [calls]. apply spaced_snoc; [exact S|].
        intros L b E. specialize (I1 L b E). lia.
      * cbn [calls previous timeout]. intros L b E.
        rewrite last_snoc in E. injection E as <- <-.
        split; [lia|]. split; [left; lia | discriminate].
    + apply orb_false_iff in B as [B1%Z.leb_gt B2%Z.ltb_ge].
      destruct (timeout s) as [due|] eqn:Tm; [|destruct (trailing options)];
        cbn [fst]; (split; [lia|]); (split; [cbn; exact P1|]);
        (split; [exact S|]);
        cbn [calls previous timeout]; intros L b E;
        destruct (I L b E) as (LT & _ & D); specialize (I1 L b E);
        (split; [lia|]); (split; [left; exact I1|]).
      * intros due' [= <-]. apply D. reflexivity.
      * intros due' [= <-]. lia.
      * discriminate.
  - destruct (timeout s) as [due|] eqn:Tm; [|discriminate V].
    apply Z.leb_le in V. unfold later.
    split; [lia|]. split; [cbn; destruct (leading options); lia|]. split.
    + cbn [calls]. apply spaced_snoc; [exact S|].
      intros L b E. destruct (I L b E) as (_ & _ & D).
      specialize (D due eq_refl). lia.
    + cbn [calls previous timeout]. intros L b E.
      rewrite last_snoc in E. injection E as <- <-.
      split; [lia|]. split; [|discriminate].
      destruct (leading options); [left; lia | right; split; reflexivity].
Qed.

Lemma settled_run (es : list (Event A)) :
  forall (T : Z) (s : State A R),
    settled wait options T s ->
    schedule func wait options T s es = true ->
    spaced wait (calls (run func wait options s es)) = true.
Proof.
  induction es as [|e es IH]; intros T s I V.
  - destruct I as (_ & _ & S & _). exact S.
  - cbn [run foldl]. apply (IH (time e)).
    + apply (settled_step T s e I). simpl. simpl in V.
      apply andb_true_iff in V as [V _]. rewrite V. reflexivity.
    + simpl in V. apply andb_true_iff in V as [_ V]. exact V.
Qed.

(** The promise of the comment of line 208, for every pair of options:
    from the moment [throttle] returns, whatever calls arrive and
    whenever the timer fires, two invocations of [func] in a row are at
    least [wait] apart.  The clock starts at a time that is not negative
    and does not go back, and the timer does not fire before it is
    due. *)
Theorem throttle_spacing (clock : Z) (es : list (Event A)) :
  0 <= clock ->
  schedule func wait options clock init es = true ->
  spaced wait (calls (run func wait options init es)) = true.
Proof.
  intros C V. apply (settled_run es clock init); [|exact V].
  split; [exact C|]. split; [exact C|]. split; [reflexivity|].
  intros L b E. discriminate E.
Qed.

End ThrottleProperties.

Lemma throttle_spacing_witness :
  let es := [Throttle.Call 1000 "a"; Throttle.Call 1100 "b";
             Throttle.Fire 1400; Throttle.Call 1500 "c";
             Throttle.Fire 1900] in
  let opts := Throttle.mkOptions false true in
  let f := fun o : option string => String.length (default "" o) in
  0 <= 0
  /\ Throttle.schedule f 400 opts 0 Throttle.init es = true
  /\ Throttle.calls (Throttle.run f 400 opts Throttle.init es)
     = [(1400, Some "b"); (1900, Some "c")]
  /\ Throttle.spaced 400
       (Throttle.calls (Throttle.run f 400 opts Throttle.init es))
     = true.
Proof.
  intros es opts f. split; [lia|]. split; [reflexivity|].
  split; [reflexivity|].
  apply (throttle_spacing f 400 opts 0 es); [lia | reflexivity].
Defined.

Section ThrottleBurst.

Import Throttle.

Context {A R : Type}.
Variable func : option A -> R.
Variable wait : Z.

Local Abbreviation options := resizeOptions.

Lemma burst_call (s : State A R) (t1 t : Z) (a0 a : A) :
  t1 <> 0 -> t1 <= t < t1 + wait ->
  previous s = t1 -> timeout s = Some (t1 + wait) -> args s = Some a0 ->
  let s' := step func wait options s (Call t a) in
  previous s' = t1 /\ timeout s' = Some (t1 + wait) /\ args s' = Some a
  /\ calls s' = calls s /\ result s' = result s.
Proof.
  intros N B P Tm _ s'. subst s'. cbn [step]. unfold throttled.
  rewrite P, Tm. replace (t1 =? 0) with false by (symmetry; apply Z.eqb_neq, N).
  cbn [andb].
  replace ((wait - (t - t1) <=? 0) || (wait <? wait - (t - t1))) with false.
  - repeat split.
  - symmetry. apply orb_false_iff. split; [apply Z.leb_gt | apply Z.ltb_ge]; lia.
Qed.

(** The closure after a burst that starts at rest: the first call sets
    the timer, the others only replace the arguments. *)
Lemma burst_state (s : State A R) (t1 : Z) (a1 : A) (burst : list (Z * A)) :
  previous s = 0 ->
  timeout s = None ->
  0 < wait ->
  t1 <> 0 ->
  Forall (fun c => t1 <= c.1 < t1 + wait) burst ->
  let s' := run func wait options s
              (Call t1 a1 :: map (fun c => Call c.1 c.2) burst) in
  previous s' = t1 /\ timeout s' = Some (t1 + wait)
  /\ args s' = Some (default a1 (snd <$> last burst))
  /\ calls s' = calls s.
Proof.
  intros P Tm W N B s'. subst s'. cbn [run foldl].
  set (s1 := step func wait options s (Call t1 a1)).
  assert (H1 : previous s1 = t1 /\ timeout s1 = Some (t1 + wait)
               /\ args s1 = Some a1 /\ calls s1 = calls s).
  { subst s1. cbn [step]. unfold throttled. rewrite P, Tm. cbn.
    replace ((wait - (t1 - t1) <=? 0) || (wait <? wait - (t1 - t1)))
      with false.
    - cbn. repeat split. f_equal. lia.
    - symmetry. apply orb_false_iff.
      split; [apply Z.leb_gt | apply Z.ltb_ge]; lia. }
  clearbody s1. clear P Tm. revert s1 a1 H1.
  induction B as [|[t a] burst Bt B IH]; intros s1 a1 H1.
  - exact H1.
  - cbn [map foldl]. destruct H1 as (P1 & T1 & A1 & C1).
    destruct (burst_call s1 t1 t a1 a N Bt P1 T1 A1) as (P2 & T2 & A2 & C2 & _).
    specialize (IH _ a (conj P2 (conj T2 (conj A2 (eq_trans C2 C1))))).
    destruct burst as [|c burst]; [exact IH|].
    rewrite last_cons_cons.
    destruct (last (c :: burst)) as [lc|] eqn:Lc; [exact IH|].
    apply last_None in Lc. discriminate Lc.
Qed.

(** A burst of calls in less than [wait], as a resize gives, on a closure
    at rest with the options of line 25: no call of the burst invokes
    [func], one timer is set, due [wait] after the first call, and when
    it fires [func] is invoked once, with the arguments of the last call
    of the burst; the closure is at rest again. *)
Theorem burst_gives_one_trailing_call (s : State A R) (t1 : Z) (a1 : A)
    (burst : list (Z * A)) (f : Z) :
  previous s = 0 ->
  timeout s = None ->
  0 < wait ->
  t1 <> 0 ->
  Forall (fun c => t1 <= c.1 < t1 + wait) burst ->
  let es := Call t1 a1 :: map (fun c => Call c.1 c.2) burst in
  let s' := run func wait options s es in
  let a := default a1 (snd <$> last burst) in
  calls s' = calls s
  /\ timeout s' = Some (t1 + wait)
  /\ args s' = Some a
  /\ later func options f s'
     = mkState None None (Some (func (Some a))) 0
               (calls s ++ [(f, Some a)]).
Proof.
  intros P Tm W N B es s' a.
  destruct (burst_state s t1 a1 burst P Tm W N B) as (_ & T' & A' & C').
  fold es in T', A', C'. fold s' in T', A', C'. fold a in A'.
  repeat split; try assumption.
  unfold later. rewrite A', C'. reflexivity.
Qed.


End ThrottleBurst.

Lemma burst_gives_one_trailing_call_witness :
  let f := fun o : option string => String.length (default "" o) in
  let opts := Throttle.resizeOptions in
  let s' := Throttle.run f 400 opts Throttle.init
              [Throttle.Call 1000 "a"; Throttle.Call 1100 "b";
               Throttle.Call 1399 "c"] in
  0 < 400
  /\ Forall (fun c : Z * string => 1000 <= c.1 < 1000 + 400)
            [(1100, "b"); (1399, "c")]
  /\ Throttle.calls s' = []
  /\ Throttle.timeout s' = Some 1400
  /\ Throttle.calls (Throttle.later f opts 1400 s') = [(1400, Some "c")].
Proof.
  intros f opts s'.
  assert (B : Forall (fun c : Z * string => 1000 <= c.1 < 1000 + 400)
                     [(1100, "b"); (1399, "c")])
    by (repeat constructor; simpl; lia).
  split; [lia|]. split; [exact B|].
  destruct (burst_gives_one_trailing_call f 400 Throttle.init 1000 "a"
              [(1100, "b"); (1399, "c")] 1400 eq_refl eq_refl)
    as (C & T & _ & L); [lia | lia | exact B |].
  split; [exact C|]. split; [exact T|].
  fold opts in L. change (Throttle.later f opts 1400 s'
    = Throttle.mkState None None (Some (f (Some "c"))) 0
        (Throttle.calls (@Throttle.init string nat) ++ [(1400, Some "c")])) in L.
  rewrite L. reflexivity.
Defined.


Section ThrottleArguments.

Import Throttle.

Context {A R : Type}.
Variable func : option A -> R.
Variable wait : Z.
Variable options : Options.

Lemma schedule_app (es es' : list (Event A)) :
  forall (T : Z) (s : State A R),
    schedule func wait options T s (es ++ es') = true ->
    schedule func wait options T s es = true
    /\ schedule func wait options
         (default T (time <$> last es)) (run func wait options s es) es'
       = true.
Proof.
  induction es as [|e es IH]; intros T s V; [split; [reflexivity | exact V]|].
  cbn [app schedule] in V. apply andb_true_iff in V as [V1 V2].
  destruct (IH _ _ V2) as [Va Vb]. split.
  - cbn [schedule]. rewrite V1, Va. reflexivity.
  - cbn [run foldl]. destruct es as [|e' es]; [exact Vb|].
    rewrite last_cons_cons.
    destruct (last (e' :: es)) eqn:L; [exact Vb|].
    apply last_None in L. discriminate L.
Qed.

(** While a timer is pending, [args] holds the arguments of the most
    recent call. *)
Lemma pending_has_latest (es : list (Event A)) :
  forall (T : Z) (s : State A R) (acc : option A),
    (is_Some (timeout s) -> args s = acc /\ is_Some acc) ->
    schedule func wait options T s es = true ->
    is_Some (timeout (run func wait options s es)) ->
    args (run func wait options s es) = latest acc es
    /\ is_Some (latest acc es).
Proof.
  induction es as [|e es IH]; intros T s acc I V P; [exact (I P)|].
  cbn [schedule] in V. apply andb_true_iff in V as [_ V].
  cbn [run foldl] in *. unfold latest. cbn [foldl].
  apply (IH (time e)); [|exact V | exact P].
  destruct e as [now a|now]; cbn [step].
  - unfold throttled.
    destruct ((_ <=? 0) || (_ <? _)).
    + cbn. intros [? X]. discriminate X.
    + destruct (timeout s); [|destruct (trailing options)]; cbn;
        intros _; split; eauto.
  - unfold later. cbn. intros [? X]. discriminate X.
Qed.

(** When the timer fires, [func] is invoked once more, with the
    arguments of the most recent call, never with the pair of nulls; this
    holds after every run of calls and timer firings that the platform
    can produce from the moment [throttle] returns. *)
Theorem timer_invokes_with_latest_arguments (clock f : Z)
    (es : list (Event A)) :
  schedule func wait options clock init (es ++ [Fire f]) = true ->
  exists a,
    latest None es = Some a
    /\ calls (run func wait options init (es ++ [Fire f]))
       = calls (run func wait options init es) ++ [(f, Some a)]
    /\ result (run func wait options init (es ++ [Fire f]))
       = Some (func (Some a)).
Proof.
  intros V. destruct (schedule_app es [Fire f] clock init V) as [Va Vb].
  cbn [schedule] in Vb.
  apply andb_true_iff in Vb as [Vb _]. apply andb_true_iff in Vb as [_ Vb].
  destruct (timeout (run func wait options init es)) as [due|] eqn:Tm;
    [|discriminate Vb].
  destruct (pending_has_latest es clock init None) as [E [a La]];
    [intros [? X]; discriminate X | exact Va | rewrite Tm; eauto |].
  exists a. split; [exact La|].
  unfold run. rewrite foldl_app. cbn [foldl step]. unfold later.
  fold (run func wait options init es). rewrite E, La. cbn.
  split; reflexivity.
Qed.

End ThrottleArguments.

Lemma timer_invokes_with_latest_arguments_witness :
  let f := fun o : option string => String.length (default "" o) in
  let es := [Throttle.Call 1000 "a"; Throttle.Call 1100 "bb"] in
  Throttle.schedule f 400 Throttle.resizeOptions 0 Throttle.init
    (es ++ [Throttle.Fire 1400]) = true
  /\ exists a, Throttle.latest None es = Some a
       /\ Throttle.result
            (Throttle.run f 400 Throttle.resizeOptions Throttle.init
               (es ++ [Throttle.Fire 1400]))
          = Some (f (Some a)).
Proof.
  intros f es. split; [reflexivity|].
  destruct (timer_invokes_with_latest_arguments f 400 Throttle.resizeOptions
              0 1400 es eq_refl) as (a & L & _ & Rs).
  exists a. split; [exact L | exact Rs].
Defined.

(** ** The transform attribute of an element *)

Lemma lastAttribute_elsewhere (el name : string) (ws : list Write) :
  Forall (fun w => writeElement w <> el) ws -> lastAttribute el name ws = None.
Proof.
  induction 1 as [|w ws N F IH]; [reflexivity|]. simpl. rewrite IH.
  destruct w as [e n v|e n v]; [reflexivity|]. simpl in N.
  destruct (String.eqb_spec e el); [contradiction | reflexivity].
Qed.

Lemma lastAttribute_styleWrites (el name : string)
    (attrs : list (string * string)) :
  lastAttribute el name (styleWrites el attrs) = None.
Proof.
  induction attrs as [|[a v] r IH]; [reflexivity|]. simpl.
  destruct (String.eqb a "display" || String.eqb a "fill"); simpl;
    rewrite IH; reflexivity.
Qed.

Lemma lastAttribute_elementJournal (el : string)
    (attrs : list (string * string)) :
  lastAttribute el "transform" (elementJournal el attrs)
  = if truthy (transformOf attrs) then Some (transformOf attrs) else None.
Proof.
  unfold elementJournal. rewrite lastAttribute_app, lastAttribute_styleWrites.
  destruct (truthy (transformOf attrs)); simpl;
    rewrite ?String.eqb_refl; reflexivity.
Qed.

Lemma lastAttribute_journal (p : string -> bool) (queryData : PatchSet)
    (el : string) (attrs : list (string * string)) :
  NoDup queryData.*1 -> (el, attrs) ∈ queryData -> p el = true ->
  lastAttribute el "transform" (journal p queryData)
  = if truthy (transformOf attrs) then Some (transformOf attrs) else None.
Proof.
  intros D I P. induction queryData as [|[k kattrs] r IH]; [inversion I|].
  simpl in D. apply NoDup_cons in D as [Nk D]. simpl.
  rewrite lastAttribute_app.
  apply elem_of_cons in I as [[= <- <-]|I].
  - rewrite P, lastAttribute_elementJournal.
    rewrite (lastAttribute_elsewhere el "transform" (journal p r));
      [reflexivity|].
    eapply Forall_impl; [apply journal_targets|].
    intros w Iw E. apply Nk. rewrite <- E. exact Iw.
  - rewrite (IH D I). destruct (truthy (transformOf attrs)); [reflexivity|].
    apply lastAttribute_elsewhere.
    assert (Ne : k <> el).
    { intros ->. apply Nk. apply list_elem_of_fmap. exists (el, attrs). eauto. }
    destruct (p k); [|constructor].
    eapply Forall_impl; [apply elementJournal_targets|].
    intros w Iw. congruence.
Qed.

(** The transform attribute of an element of the document after a patch
    set that has a patch for it: the composition of the [transform] of
    the patch with the translate value of its [x] and [y], and when that
    composition is empty the attribute is left with the value it had.  A
    patch that gives [x] alone writes [translate(x,0)], and one that gives
    [y] alone writes [translate(0,y)].  The keys of a patch set are
    distinct, as the property names of an object are. *)
Theorem transform_attribute_after (queryData : PatchSet) (h : Host)
    (el : string) (attrs : list (string * string)) :
  NoDup queryData.*1 ->
  (el, attrs) ∈ queryData ->
  is_Some (document h !! el) ->
  attributeOf el "transform" (document (applyData queryData h))
  = (if truthy (transformOf attrs) then Some (transformOf attrs)
     else attributeOf el "transform" (document h))
  /\ (forall v, lastValue "x" attrs = Some v -> truthy v = true ->
        lastValue "y" attrs = None -> lastValue "transform" attrs = None ->
        transformOf attrs = "translate(" +:+ v +:+ ",0)")
  /\ (forall v, lastValue "y" attrs = Some v -> truthy v = true ->
        lastValue "x" attrs = None -> lastValue "transform" attrs = None ->
        transformOf attrs = "translate(0," +:+ v +:+ ")").
Proof.
  intros D I P. split; [|split].
  - rewrite applyData_effect. cbn [document].
    rewrite attributeOf_journal by exact P.
    rewrite (lastAttribute_journal (present h) queryData el attrs D I)
      by (apply present_Some, P).
    destruct (truthy (transformOf attrs)); reflexivity.
  - intros v X T Y Tr. unfold transformOf, translateValueOf.
    rewrite X, Y, Tr. cbn. rewrite T. reflexivity.
  - intros v Y T X Tr. unfold transformOf, translateValueOf.
    rewrite X, Y, Tr. cbn. rewrite T. reflexivity.
Qed.

Lemma transform_attribute_after_witness :
  let patch := [("a", [("x", "10"); ("fill", "red")])] in
  NoDup patch.*1
  /\ ("a", [("x", "10"); ("fill", "red")]) ∈ patch
  /\ is_Some (document page !! "a")
  /\ attributeOf "a" "transform" (document (applyData patch page))
     = Some "translate(10,0)".
Proof.
  intros patch.
  assert (D : NoDup patch.*1) by (repeat constructor; set_solver).
  assert (I : ("a", [("x", "10"); ("fill", "red")]) ∈ patch)
    by apply list_elem_of_here.
  assert (P : is_Some (document page !! "a")) by (eexists; reflexivity).
  do 3 (split; [assumption|]).
  exact (proj1 (transform_attribute_after patch page "a"
                  [("x", "10"); ("fill", "red")] D I P)).
Defined.

(** ** A width that is not a number *)

(** When the measured width is [NaN], as [Number] gives for a computed
    width that is not a number of pixels, every comparison of the cycle
    is false: a call of [process] on a list that is not empty applies
    nothing and completes normally, with or without a default entry. *)
Theorem width_NaN_applies_nothing (this : NuSvg) (h : Host) :
  width (svgComposition this) = NaN ->
  queries this <> [] ->
  process this h = Normal h.
Proof.
  intros W NE. unfold process.
  rewrite (forEach_no_match this _ h) with (pre := []); [| |reflexivity].
  - apply last_is_Some in NE as [lastQuery ->].
    unfold applyContainerQuery, gt. rewrite W, lt_NaN_r. reflexivity.
  - intros i q Hq. destruct (queryDataOf_Some this i q Hq) as [d Hd].
    apply (visit_out_of_range this _ q i d h Hd).
    unfold inRange, gt. rewrite W, lt_NaN_r. reflexivity.
Qed.

Lemma width_NaN_applies_nothing_witness :
  let this := mkNuSvg (mkComposition NaN)
                [mkQuery ">400" [("a", [("fill", "blue")])]] in
  width (svgComposition this) = NaN
  /\ queries this <> []
  /\ process this page = Normal page.
Proof.
  intros this. split; [reflexivity|].
  assert (NE : queries this <> []) by discriminate.
  split; [exact NE|].
  exact (width_NaN_applies_nothing this page eq_refl NE).
Defined.

(** * Attribute values that are not strings *)

(** ** The attribute applier *)

(** The inner loop of [Dyn.applyData]: the locals hold the last [x], [y]
    and [transform] seen, and the host has taken the style writes when the
    element was found. *)
Lemma Dyn_attributes_loop (element : option string)
    (attrs : list (string * Dyn.Value)) (l : Dyn.Locals) (h : Host) :
  foldl (fun st '(attr, attrValue) => Dyn.applyAttr element attr attrValue st)
        (l, h) attrs
  = (Dyn.mkLocals
       (Dyn.TranslateData.mk
          (match Dyn.lastValue "x" attrs with
           | Some v => Some v
           | None => Dyn.TranslateData.x (Dyn.translateData l)
           end)
          (match Dyn.lastValue "y" attrs with
           | Some v => Some v
           | None => Dyn.TranslateData.y (Dyn.translateData l)
           end))
       (match Dyn.lastValue "transform" attrs with
        | Some v => v
        | None => Dyn.transformValue l
        end),
     match element with
     | Some el =>
         mkHost (foldl perform (document h) (Dyn.styleWrites el attrs))
                (writes h ++ Dyn.styleWrites el attrs)
     | None => h
     end).
Proof.
  revert l h. induction attrs as [|[a v] r IH]; intros l h.
  - simpl. rewrite app_nil_r. destruct l as [[x y] t], h, element; reflexivity.
  - cbn [foldl]. unfold Dyn.applyAttr at 2. cbn [Dyn.lastValue Dyn.styleWrites].
    destruct (String.eqb_spec a "x") as [->|Nx].
    { rewrite IH. cbn. destruct (Dyn.lastValue "x" r), (Dyn.lastValue "y" r),
        (Dyn.lastValue "transform" r); reflexivity. }
    destruct (String.eqb_spec a "y") as [->|Ny].
    { rewrite IH. cbn. destruct (Dyn.lastValue "x" r), (Dyn.lastValue "y" r),
        (Dyn.lastValue "transform" r); reflexivity. }
    destruct (String.eqb_spec a "display") as [->|Nd].
    { rewrite IH. cbn. destruct element as [el|].
      - cbn. rewrite <- app_assoc.
        destruct (Dyn.lastValue "x" r), (Dyn.lastValue "y" r),
          (Dyn.lastValue "transform" r); reflexivity.
      - destruct (Dyn.lastValue "x" r), (Dyn.lastValue "y" r),
          (Dyn.lastValue "transform" r); reflexivity. }
    destruct (String.eqb_spec a "fill") as [->|Nf].
    { rewrite IH. cbn. destruct element as [el|].
      - cbn. rewrite <- app_assoc.
        destruct (Dyn.lastValue "x" r), (Dyn.lastValue "y" r),
          (Dyn.lastValue "transform" r); reflexivity.
      - destruct (Dyn.lastValue "x" r), (Dyn.lastValue "y" r),
          (Dyn.lastValue "transform" r); reflexivity. }
    destruct (String.eqb_spec a "transform") as [->|Nt].
    { rewrite IH. cbn. destruct (Dyn.lastValue "x" r), (Dyn.lastValue "y" r),
        (Dyn.lastValue "transform" r); reflexivity. }
    rewrite IH. cbn.
    destruct (Dyn.lastValue "x" r), (Dyn.lastValue "y" r),
      (Dyn.lastValue "transform" r); reflexivity.
Qed.

(** One turn of the outer loop: it ends in the TypeError of line 168
    exactly when the patch throws, and the host has taken the writes of
    the patch when the element is in the document, none otherwise. *)
Lemma Dyn_applyElement_effect (h : Host) (el : string)
    (attrs : list (string * Dyn.Value)) :
  let ws := if present h el then Dyn.elementJournal el attrs else [] in
  let h' := mkHost (foldl perform (document h) ws) (writes h ++ ws) in
  Dyn.applyElement h (el, attrs)
  = if Dyn.throws attrs then Throw TypeError h' else Normal h'.
Proof.
  unfold Dyn.applyElement, getElementById, present, Dyn.elementJournal,
    Dyn.throws.
  rewrite Dyn_attributes_loop. cbn [Dyn.translateData Dyn.transformValue].
  replace (Dyn.composeTransform _ _) with (Dyn.transformOf attrs).
  - destruct (document h !! el) as [e|]; cbn zeta.
    + destruct (Dyn.transformOf attrs) as [v|].
      * destruct (Dyn.truthy v).
        -- unfold applyAttribute. cbn [document writes].
           rewrite foldl_app, <- app_assoc. reflexivity.
        -- rewrite app_nil_r. reflexivity.
      * rewrite app_nil_r. reflexivity.
    + cbn [foldl]. rewrite app_nil_r.
      destruct (Dyn.transformOf attrs) as [v|]; [destruct (Dyn.truthy v)|];
        destruct h; reflexivity.
  - unfold Dyn.transformOf. cbn.
    destruct (Dyn.lastValue "x" attrs), (Dyn.lastValue "y" attrs),
      (Dyn.lastValue "transform" attrs); reflexivity.
Qed.

Lemma Dyn_journal_ext (p1 p2 : string -> bool) (queryData : Dyn.PatchSet) :
  (forall el, p1 el = p2 el) ->
  Dyn.journal p1 queryData = Dyn.journal p2 queryData.
Proof.
  intros E. induction queryData as [|[el attrs] r IH]; [reflexivity|].
  cbn [Dyn.journal]. rewrite E, IH. reflexivity.
Qed.

(** When no patch throws, the application completes normally and has
    made the writes of the journal, in its order. *)
Lemma Dyn_applyData_safe (queryData : Dyn.PatchSet) (h : Host) :
  Dyn.safe queryData = true ->
  Dyn.applyData queryData h
  = Normal (mkHost (foldl perform (document h)
                      (Dyn.journal (present h) queryData))
                   (writes h ++ Dyn.journal (present h) queryData)).
Proof.
  revert h. induction queryData as [|[el attrs] r IH]; intros h S.
  - cbn. rewrite app_nil_r. destruct h; reflexivity.
  - cbn [Dyn.safe forallb snd] in S. apply andb_true_iff in S as [T S].
    apply negb_true_iff in T.
    cbn [Dyn.applyData Dyn.journal]. rewrite Dyn_applyElement_effect, T.
    cbn zeta. rewrite (IH _ S). cbn [document writes].
    rewrite (Dyn_journal_ext _ (present h)) by (intros k; apply present_perform).
    rewrite foldl_app, <- app_assoc. reflexivity.
Qed.

(** When a patch throws, the application ends in a TypeError. *)
Lemma Dyn_applyData_unsafe (queryData : Dyn.PatchSet) (h : Host) :
  Dyn.safe queryData = false ->
  exists h', Dyn.applyData queryData h = Throw TypeError h'.
Proof.
  revert h. induction queryData as [|[el attrs] r IH]; intros h S.
  - discriminate S.
  - cbn [Dyn.safe forallb snd] in S. cbn [Dyn.applyData].
    rewrite Dyn_applyElement_effect. cbn zeta.
    destruct (Dyn.throws attrs); [eauto|]. apply IH, S.
Qed.

(** Whatever the outcome, the writes made go to elements of the
    document, and no element appears or disappears. *)
Lemma Dyn_applyData_wrote (queryData : Dyn.PatchSet) (h : Host) :
  wrote (fun id => is_Some (document h !! id)) h
        (hostOf (Dyn.applyData queryData h)).
Proof.
  revert h. induction queryData as [|[el attrs] r IH]; intros h.
  - apply wrote_refl.
  - cbn [Dyn.applyData]. rewrite Dyn_applyElement_effect. cbn zeta.
    set (ws := if present h el then Dyn.elementJournal el attrs else []).
    set (h1 := mkHost (foldl perform (document h) ws) (writes h ++ ws)).
    assert (W : wrote (fun id => is_Some (document h !! id)) h h1).
    { split.
      - exists ws. split; [reflexivity|]. subst ws.
        destruct (present h el) eqn:P; [|constructor].
        apply present_Some in P. unfold Dyn.elementJournal.
        apply Forall_app. split.
        + clear -P. induction attrs as [|[a v] r IH]; [constructor|].
          cbn [Dyn.styleWrites].
          destruct (_ || _); [constructor; [exact P | exact IH] | exact IH].
        + destruct (Dyn.transformOf attrs) as [v|]; [|constructor].
          destruct (Dyn.truthy v); repeat constructor. exact P.
      - intros k. apply foldl_perform_None. }
    destruct (Dyn.throws attrs); [exact W|].
    eapply wrote_trans; [exact W|].
    eapply wrote_weaken; [|apply IH].
    intros id. cbn [document h1]. apply foldl_perform_is_Some.
Qed.

(** ** An element that is not in the document (C8) *)




(** ** The resolver over such patches *)

Lemma Dyn_isDefault_key (q : Dyn.Query) :
  Dyn.isDefault q = true <-> Dyn.query q = "default".
Proof. apply String.eqb_eq. Qed.

Lemma Dyn_queryDataOf_Some (this : Dyn.NuSvg) (i : nat) (q : Dyn.Query) :
  Dyn.queries this !! i = Some q ->
  exists d, Dyn.queryDataOf this q i = Some d.
Proof.
  intros L. unfold Dyn.queryDataOf.
  destruct (Dyn.isDefault q || Nat.eqb i 0) eqn:B; [eauto|].
  apply orb_false_iff in B as [_ B%Nat.eqb_neq].
  destruct (lookup_lt_is_Some_2 (Dyn.queries this) (i - 1)%nat) as [p ->].
  - apply lookup_lt_Some in L. lia.
  - destruct (Dyn.isDefault p); eauto.
Qed.

Lemma Dyn_queryDataOf_max (this : Dyn.NuSvg) (i : nat) (q : Dyn.Query)
    (d : QueryData) :
  Dyn.isDefault q = false -> Dyn.queryDataOf this q i = Some d ->
  max d = Dyn.threshold q.
Proof.
  intros D H. unfold Dyn.queryDataOf in H. rewrite D in H. simpl in H.
  destruct (Nat.eqb i 0); [injection H as <-; reflexivity|].
  destruct (Dyn.queries this !! (i - 1)%nat) as [p|]; [|discriminate].
  destruct (Dyn.isDefault p); injection H as <-; reflexivity.
Qed.

Lemma Dyn_applyContainerQuery_inRange (this : Dyn.NuSvg) (d : QueryData)
    (q : Dyn.Query) (dq : option Dyn.Query) (h : Host) :
  Dyn.applyContainerQuery this d q dq false h
  = if Dyn.inRange this d then Dyn.applyQuery q dq h else Normal h.
Proof. reflexivity. Qed.

Lemma Dyn_head_filter_Some (l : list Dyn.Query) (d : Dyn.Query) :
  head (List.filter Dyn.isDefault l) = Some d ->
  d ∈ l /\ Dyn.query d = "default".
Proof.
  induction l as [|q l IH]; simpl; [discriminate|].
  destruct (Dyn.isDefault q) eqn:D.
  - intros [= <-].
    split; [apply list_elem_of_here | apply Dyn_isDefault_key, D].
  - intros H. destruct (IH H) as [I K].
    split; [apply list_elem_of_further, I | exact K].
Qed.

Lemma Dyn_default_found (l : list Dyn.Query) (d : Dyn.Query) :
  d ∈ l -> Dyn.query d = "default" ->
  exists d', head (List.filter Dyn.isDefault l) = Some d'.
Proof.
  intros I K. apply Dyn_isDefault_key in K.
  induction I as [d l|d d0 l I IH]; simpl.
  - rewrite K. eauto.
  - destruct (Dyn.isDefault d0); [eauto | exact (IH K)].
Qed.

(** An application of a patch set throws nothing but a TypeError. *)
Lemma Dyn_applyData_Throw (queryData : Dyn.PatchSet) (h h' : Host)
    (e : JsError) :
  Dyn.applyData queryData h = Throw e h' ->
  e = TypeError /\ Dyn.safe queryData = false.
Proof.
  intros T. destruct e. split; [reflexivity|].
  destruct (Dyn.safe queryData) eqn:S; [|reflexivity].
  rewrite (Dyn_applyData_safe _ _ S) in T. discriminate T.
Qed.

(** With a default entry, the loop over a list whose patches do not throw
    completes normally. *)
Lemma Dyn_forEach_visit_completes (this : Dyn.NuSvg) (dq : Dyn.Query) :
  Dyn.safe (Dyn.data dq) = true ->
  (forall q, q ∈ Dyn.queries this -> Dyn.safe (Dyn.data q) = true) ->
  forall (suf pre : list Dyn.Query) (h : Host),
    Dyn.queries this = pre ++ suf ->
    exists h',
      Dyn.forEach (Dyn.visit this (Some dq)) suf (length pre) h = Normal h'.
Proof.
  intros Sd Sq.
  induction suf as [|q suf IH]; intros pre h E; simpl; [eauto|].
  assert (Lq : Dyn.queries this !! length pre = Some q)
    by (rewrite E; apply list_lookup_middle; reflexivity).
  destruct (Dyn_queryDataOf_Some this (length pre) q Lq) as [d Hd].
  assert (E' : Dyn.queries this = (pre ++ [q]) ++ suf)
    by (rewrite <- app_assoc; exact E).
  assert (N : S (length pre) = length (pre ++ [q]))
    by (rewrite length_app; simpl; lia).
  unfold Dyn.visit. rewrite Hd, Dyn_applyContainerQuery_inRange, N.
  destruct (Dyn.inRange this d); [|apply IH, E'].
  unfold Dyn.applyQuery. rewrite (Dyn_applyData_safe _ _ Sd).
  rewrite Dyn_applyData_safe
    by (apply Sq, list_elem_of_lookup; eauto).
  apply IH, E'.
Qed.

(** Without a default entry the loop stops with a TypeError at the first
    entry in range, before anything is written. *)
Lemma Dyn_forEach_no_default (this : Dyn.NuSvg) :
  forall (suf pre : list Dyn.Query) (h : Host),
    Dyn.queries this = pre ++ suf ->
    ((exists i q d, Dyn.queries this !! i = Some q
                    /\ Dyn.queryDataOf this q i = Some d
                    /\ Dyn.inRange this d = true)
     /\ Dyn.forEach (Dyn.visit this None) suf (length pre) h
        = Throw TypeError h)
    \/ ((forall i q d, (length pre <= i)%nat ->
           Dyn.queries this !! i = Some q ->
           Dyn.queryDataOf this q i = Some d -> Dyn.inRange this d = false)
        /\ Dyn.forEach (Dyn.visit this None) suf (length pre) h = Normal h).
Proof.
  induction suf as [|q suf IH]; intros pre h E.
  - right. split; [|reflexivity]. intros i q d Hi Hq.
    rewrite E, app_nil_r in Hq. apply lookup_lt_Some in Hq. lia.
  - assert (Lq : Dyn.queries this !! length pre = Some q)
      by (rewrite E; apply list_lookup_middle; reflexivity).
    destruct (Dyn_queryDataOf_Some this (length pre) q Lq) as [d Hd].
    cbn [Dyn.forEach]. unfold Dyn.visit at 1 3.
    rewrite Hd, Dyn_applyContainerQuery_inRange.
    destruct (Dyn.inRange this d) eqn:R.
    + left. split; [exists (length pre), q, d; auto | reflexivity].
    + assert (E' : Dyn.queries this = (pre ++ [q]) ++ suf)
        by (rewrite <- app_assoc; exact E).
      assert (Len : S (length pre) = length (pre ++ [q]))
        by (rewrite length_app; simpl; lia).
      rewrite Len.
      destruct (IH (pre ++ [q]) h E') as [[X F]|[O F]].
      * left. split; [exact X | exact F].
      * right. split; [|exact F]. intros i q' d' Hi Hq' Hd'.
        destruct (decide (i = length pre)) as [->|Ne].
        -- rewrite Lq in Hq'. injection Hq' as <-.
           rewrite Hd in Hd'. injection Hd' as <-. exact R.
        -- apply (O i q' d'); try assumption. rewrite <- Len. lia.
Qed.

(** A list with a patch set that is not safe has an entry that gives
    it. *)
Lemma Dyn_unsafe_entry (l : list Dyn.Query) :
  forallb (fun q => Dyn.safe (Dyn.data q)) l = false ->
  exists q, q ∈ l /\ Dyn.safe (Dyn.data q) = false.
Proof.
  induction l as [|q l IH]; [discriminate|]. cbn [forallb].
  destruct (Dyn.safe (Dyn.data q)) eqn:S.
  - intros F. destruct (IH F) as (q' & I & U).
    exists q'. split; [apply list_elem_of_further, I | exact U].
  - intros _. exists q. split; [apply list_elem_of_here | exact S].
Qed.

Lemma Dyn_all_safe (l : list Dyn.Query) :
  forallb (fun q => Dyn.safe (Dyn.data q)) l = true ->
  forall q, q ∈ l -> Dyn.safe (Dyn.data q) = true.
Proof.
  intros F q I. rewrite forallb_forall in F. apply F.
  apply list_elem_of_In, I.
Qed.

(** With a default entry, a list that is not empty and patches that do
    not throw, a cycle completes normally. *)
Lemma Dyn_process_Normal (this : Dyn.NuSvg) (h : Host) :
  Dyn.queries this <> [] ->
  (exists d, d ∈ Dyn.queries this /\ Dyn.query d = "default") ->
  (forall q, q ∈ Dyn.queries this -> Dyn.safe (Dyn.data q) = true) ->
  exists h', Dyn.process this h = Normal h'.
Proof.
  intros NE (d & I & K) S. unfold Dyn.process.
  destruct (Dyn_default_found _ d I K) as [d' Hd']. rewrite Hd'.
  apply Dyn_head_filter_Some in Hd' as [I' _].
  destruct (Dyn_forEach_visit_completes this d' (S d' I') S
              (Dyn.queries this) [] h eq_refl) as [h1 F].
  simpl in F. rewrite F.
  apply last_is_Some in NE as [lastQuery ->].
  unfold Dyn.applyContainerQuery.
  destruct (gt _ _); [|eauto].
  rewrite (Dyn_applyData_safe _ _ (S d' I')). eauto.
Qed.

(** ** A cycle that completes (C10) *)




(** ** When a cycle throws *)


(** * What a width above the last threshold leaves in place (C7) *)

(** A style or attribute of an element that the patch set does not name
    is as it was. *)
Lemma applyData_elsewhere (queryData : PatchSet) (h : Host)
    (el name : string) :
  el ∉ queryData.*1 ->
  styleOf el name (document (applyData queryData h))
  = styleOf el name (document h)
  /\ attributeOf el name (document (applyData queryData h))
     = attributeOf el name (document h).
Proof.
  intros N. rewrite applyData_effect. cbn [document].
  assert (F : Forall (fun w => writeElement w <> el)
                     (journal (present h) queryData)).
  { eapply Forall_impl; [apply journal_targets|].
    intros w I E. apply N. rewrite <- E. exact I. }
  destruct (document h !! el) as [e|] eqn:D.
  - rewrite styleOf_journal, attributeOf_journal by (rewrite D; eauto).
    rewrite (lastStyle_elsewhere _ _ _ F), (lastAttribute_elsewhere _ _ _ F).
    split; reflexivity.
  - unfold styleOf, attributeOf. rewrite D.
    apply (foldl_perform_None (journal (present h) queryData)) in D.
    rewrite D. split; reflexivity.
Qed.

(** C7, as stated, fails: nothing is reverted.  In the list
    [otherElement] the entry [>400] hides the element [b] and moves it.
    After a cycle at width 300, where that entry matches, a cycle at
    width 500 applies the default's data alone, and these do not mention
    [b]: it stays hidden and moved, where a cycle at width 500 on the
    untouched document leaves it shown and in place. *)
Lemma C7_counterexample :
  exists h1 h2 h0,
    process (nuSvg 300 otherElement) twoElements = Normal h1
    /\ process (nuSvg 500 otherElement) h1 = Normal h2
    /\ process (nuSvg 500 otherElement) twoElements = Normal h0
    /\ styleOf "b" "display" (document h1) = Some "none"
    /\ styleOf "b" "display" (document h2) = Some "none"
    /\ attributeOf "b" "transform" (document h2) = Some "translate(5,0)"
    /\ styleOf "b" "display" (document h0) = None
    /\ attributeOf "b" "transform" (document h0) = None
    /\ document h2 <> document h0.
Proof.
  eexists _, _, _.
  split; [vm_compute; reflexivity|].
  split; [vm_compute; reflexivity|].
  split; [vm_compute; reflexivity|].
  do 5 (split; [vm_compute; reflexivity|]).
  intros E. apply (f_equal (styleOf "b" "display")) in E.
  vm_compute in E. discriminate E.
Qed.

(** C7, amended: when the list is in ascending threshold order and has a
    default entry, a width strictly greater than the threshold parsed from
    the last entry makes [process] apply the data of the default entry
    alone, to the host as an earlier cycle left it.  Afterwards an element
    of the document has the fill, the display and the transform that the
    default's data give it, whatever it had before; a style or attribute
    that the default's data do not give, and every style and attribute of
    an element that they do not name, is as the earlier cycle left it. *)
Theorem C7_default_alone_above_last (this : NuSvg) (d lastQuery : Query)
    (t x : Q) (h : Host) :
  head (List.filter isDefault (queries this)) = Some d ->
  ascending (queries this) = true ->
  last (queries this) = Some lastQuery ->
  parseInt (substr1 (query lastQuery)) = Num t ->
  width (svgComposition this) = Num x ->
  (t < x)%Q ->
  NoDup (data d).*1 ->
  exists h',
    process this h = Normal h'
    /\ h' = applyData (data d) h
    /\ (forall el attrs name,
          (el, attrs) ∈ data d -> is_Some (document h !! el) ->
          name = "fill" \/ name = "display" ->
          styleOf el name (document h')
          = match lastValue name attrs with
            | Some v => Some v
            | None => styleOf el name (document h)
            end)
    /\ (forall el attrs,
          (el, attrs) ∈ data d -> is_Some (document h !! el) ->
          attributeOf el "transform" (document h')
          = if truthy (transformOf attrs) then Some (transformOf attrs)
            else attributeOf el "transform" (document h))
    /\ (forall el name,
          el ∉ (data d).*1 ->
          styleOf el name (document h') = styleOf el name (document h)
          /\ attributeOf el name (document h')
             = attributeOf el name (document h)).
Proof.
  intros Hd A L T W G ND. exists (applyData (data d) h).
  split; [exact (process_above_last_threshold this d lastQuery t x h
                   Hd A L T W G)|].
  split; [reflexivity|]. split; [|split].
  - intros el attrs name I P Hn. rewrite applyData_effect. cbn [document].
    rewrite styleOf_journal by exact P.
    rewrite (lastStyle_journal (present h) (data d) el name attrs ND I)
      by (try apply present_Some; assumption).
    reflexivity.
  - intros el attrs I P. rewrite applyData_effect. cbn [document].
    rewrite attributeOf_journal by exact P.
    rewrite (lastAttribute_journal (present h) (data d) el attrs ND I)
      by (apply present_Some; assumption).
    destruct (truthy (transformOf attrs)); reflexivity.
  - intros el name N. apply applyData_elsewhere, N.
Qed.

Lemma C7_default_alone_above_last_witness :
  let d := mkQuery "default" [("a", [("fill", "red")])] in
  let h := mkHost {[ "a" := mkElement {[ "fill" := "blue" ]} ∅;
                     "b" := mkElement {[ "display" := "none" ]} ∅ ]} [] in
  head (List.filter isDefault (queries (nuSvg 500 otherElement))) = Some d
  /\ ascending (queries (nuSvg 500 otherElement)) = true
  /\ (400 < 500)%Q
  /\ NoDup (data d).*1
  /\ exists h',
       process (nuSvg 500 otherElement) h = Normal h'
       /\ styleOf "a" "fill" (document h') = Some "red"
       /\ styleOf "b" "display" (document h') = Some "none".
Proof.
  intros d h.
  assert (ND : NoDup (data d).*1) by (apply NoDup_singleton).
  do 3 (split; [reflexivity|]). split; [exact ND|].
  destruct (C7_default_alone_above_last (nuSvg 500 otherElement) d
              (mkQuery ">400" [("b", [("display", "none"); ("x", "5")])])
              (inject_Z 400) (inject_Z 500) h
              eq_refl eq_refl eq_refl eq_refl eq_refl eq_refl ND)
    as (h' & P & _ & S & _ & O).
  exists h'. split; [exact P|]. split.
  - rewrite (S "a" [("fill", "red")] "fill");
      [reflexivity | apply list_elem_of_here | eexists; reflexivity
      | left; reflexivity].
  - assert (NB : "b" ∉ (data d).*1)
      by (cbn; intros I%list_elem_of_singleton; discriminate I).
    rewrite (proj1 (O "b" "display" NB)). reflexivity.
Defined.

(** * What follows the digits of a key, for thresholds below 2^53 *)

Lemma digitValue_decimal (c : ascii) (d : Z) :
  digitValue 10 c = Some d -> 0 <= d <= 9.
Proof.
  destruct c as [[] [] [] [] [] [] [] []]; vm_compute; intros H;
    try discriminate H; injection H as <-; split; discriminate.
Qed.

(** The number that decimal digits spell after [acc]. *)
Lemma digits_bound (s : string) (acc : Z) :
  0 <= acc -> decimal s = true ->
  exists n, digits 10 s (Some acc) = Some n
            /\ acc * 10 ^ Z.of_nat (String.length s) <= n
               < (acc + 1) * 10 ^ Z.of_nat (String.length s).
Proof.
  revert acc. induction s as [|c s IH]; intros acc A D.
  - exists acc. split; [reflexivity|]. cbn. lia.
  - cbn [decimal] in D. cbn [digits String.length].
    destruct (digitValue 10 c) as [d|] eqn:V; [|discriminate D].
    apply digitValue_decimal in V.
    destruct (IH (10 * default 0 (Some acc) + d)) as (n & E & B);
      [cbn; lia | exact D |].
    exists n. split; [exact E|]. cbn [default] in B.
    rewrite Nat2Z.inj_succ, Z.pow_succ_r by lia.
    assert (0 < 10 ^ Z.of_nat (String.length s))
      by (apply Z.pow_pos_nonneg; lia).
    unfold id in B. clear IH E.
    generalize dependent (10 ^ Z.of_nat (String.length s)). intros p B Pp.
    nia.
Qed.



(** * Patches whose values are all strings

    On a list whose attribute values are all strings the applier and the
    resolver of [Dyn] do what [applyData] and [process] do. *)

Local Abbreviation strs :=
  (map (fun '(a, v) => (a, Dyn.Str v)) : list (string * string) -> _).

Lemma Dyn_lastValue_strings (name : string) (attrs : list (string * string)) :
  Dyn.lastValue name (strs attrs) = Dyn.Str <$> lastValue name attrs.
Proof.
  induction attrs as [|[a v] r IH]; [reflexivity|].
  cbn [map Dyn.lastValue lastValue]. rewrite IH.
  destruct (lastValue name r); [reflexivity|].
  cbn. destruct (String.eqb a name); reflexivity.
Qed.

Lemma Dyn_styleWrites_strings (el : string) (attrs : list (string * string)) :
  Dyn.styleWrites el (strs attrs) = styleWrites el attrs.
Proof.
  induction attrs as [|[a v] r IH]; [reflexivity|].
  cbn [map Dyn.styleWrites styleWrites]. rewrite IH. reflexivity.
Qed.

Lemma Dyn_transformOf_strings (attrs : list (string * string)) :
  Dyn.transformOf (strs attrs) = Some (Dyn.Str (transformOf attrs)).
Proof.
  unfold Dyn.transformOf, transformOf. rewrite !Dyn_lastValue_strings.
  assert (T : Dyn.translateValueOf
                (Dyn.TranslateData.mk (Dyn.Str <$> lastValue "x" attrs)
                                      (Dyn.Str <$> lastValue "y" attrs))
              = translateValueOf
                  (TranslateData.mk (lastValue "x" attrs)
                                    (lastValue "y" attrs))).
  { destruct (lastValue "x" attrs), (lastValue "y" attrs); reflexivity. }
  rewrite T.
  destruct (translateValueOf _) as [t|];
    destruct (lastValue "transform" attrs) as [e|];
    unfold Dyn.composeTransform, composeTransform; cbn;
    repeat (match goal with
            | |- context [truthy ?s] => destruct (truthy s)
            end); reflexivity.
Qed.

Lemma Dyn_journal_strings (p : string -> bool) (queryData : PatchSet) :
  Dyn.journal p (Dyn.ofStrings queryData) = journal p queryData.
Proof.
  induction queryData as [|[el attrs] r IH]; [reflexivity|].
  cbn [Dyn.ofStrings map Dyn.journal journal].
  fold (Dyn.ofStrings r). rewrite IH. f_equal.
  destruct (p el); [|reflexivity].
  unfold Dyn.elementJournal, elementJournal.
  rewrite Dyn_styleWrites_strings, Dyn_transformOf_strings. reflexivity.
Qed.

Lemma Dyn_safe_strings (queryData : PatchSet) :
  Dyn.safe (Dyn.ofStrings queryData) = true.
Proof.
  induction queryData as [|[el attrs] r IH]; [reflexivity|].
  cbn [Dyn.ofStrings map Dyn.safe forallb snd].
  unfold Dyn.throws. rewrite Dyn_transformOf_strings. exact IH.
Qed.

(** The applier of [Dyn] on string values is [applyData]. *)
Lemma Dyn_applyData_strings (queryData : PatchSet) (h : Host) :
  Dyn.applyData (Dyn.ofStrings queryData) h = Normal (applyData queryData h).
Proof.
  rewrite Dyn_applyData_safe by apply Dyn_safe_strings.
  rewrite Dyn_journal_strings, applyData_effect. reflexivity.
Qed.

Lemma Dyn_queryDataOf_strings (this : NuSvg) (q : Query) (i : nat) :
  Dyn.queryDataOf (dynNuSvg this) (dynQuery q) i = queryDataOf this q i.
Proof.
  unfold Dyn.queryDataOf, queryDataOf. cbn [dynNuSvg Dyn.queries].
  change (Dyn.isDefault (dynQuery q)) with (isDefault q).
  change (Dyn.threshold (dynQuery q)) with (threshold q).
  destruct (isDefault q || Nat.eqb i 0); [reflexivity|].
  change (map dynQuery (queries this)) with (dynQuery <$> queries this).
  rewrite list_lookup_fmap.
  destruct (queries this !! (i - 1)%nat) as [p|]; reflexivity.
Qed.

Lemma Dyn_visit_strings (this : NuSvg) (dq : option Query) (q : Query)
    (i : nat) (h : Host) :
  Dyn.visit (dynNuSvg this) (dynQuery <$> dq) (dynQuery q) i h
  = visit this dq q i h.
Proof.
  unfold Dyn.visit, visit. rewrite Dyn_queryDataOf_strings.
  destruct (queryDataOf this q i) as [d|]; [|reflexivity].
  unfold Dyn.applyContainerQuery, applyContainerQuery.
  cbn [dynNuSvg Dyn.svgComposition].
  destruct (_ && _); [|reflexivity].
  unfold Dyn.applyQuery, applyQuery. destruct dq as [dd|]; [|reflexivity].
  cbn [fmap option_fmap option_map dynQuery Dyn.data].
  rewrite !Dyn_applyData_strings. reflexivity.
Qed.

Lemma Dyn_forEach_strings (this : NuSvg) (dq : option Query)
    (l : list Query) (i : nat) (h : Host) :
  Dyn.forEach (Dyn.visit (dynNuSvg this) (dynQuery <$> dq))
    (map dynQuery l) i h
  = forEach (visit this dq) l i h.
Proof.
  revert i h. induction l as [|q l IH]; intros i h; [reflexivity|].
  cbn [map Dyn.forEach forEach]. rewrite Dyn_visit_strings.
  destruct (visit this dq q i h); [apply IH | reflexivity].
Qed.

Lemma Dyn_default_strings (l : list Query) :
  head (List.filter Dyn.isDefault (map dynQuery l))
  = dynQuery <$> head (List.filter isDefault l).
Proof.
  induction l as [|q l IH]; [reflexivity|]. cbn [map List.filter].
  change (Dyn.isDefault (dynQuery q)) with (isDefault q).
  destruct (isDefault q); [reflexivity | exact IH].
Qed.

(** The resolver of [Dyn] on string values is [process]. *)
Lemma Dyn_process_strings (this : NuSvg) (h : Host) :
  Dyn.process (dynNuSvg this) h = process this h.
Proof.
  unfold Dyn.process, process. cbn [dynNuSvg Dyn.queries].
  rewrite Dyn_default_strings, Dyn_forEach_strings.
  destruct (forEach _ _ _ _) as [h1|e h1]; [|reflexivity].
  change (map dynQuery (queries this)) with (dynQuery <$> queries this).
  rewrite fmap_last.
  destruct (last (queries this)) as [lastQuery|]; [|reflexivity].
  cbn [fmap option_fmap option_map].
  unfold Dyn.applyContainerQuery, applyContainerQuery.
  cbn [Dyn.svgComposition max].
  change (Dyn.threshold (dynQuery lastQuery)) with (threshold lastQuery).
  destruct (gt _ _); [|reflexivity].
  destruct (head (List.filter isDefault (queries this))) as [d|];
    [|reflexivity].
  cbn [fmap option_fmap option_map dynQuery Dyn.data].
  rewrite Dyn_applyData_strings. reflexivity.
Qed.

